(** * Issue tracker: data-access layer and REST handlers

    A shallow embedding of [server/storage.ts] (the [MemStorage] and
    [DatabaseStorage] realisations of [IStorage]), of the insert schemas of
    [shared/schema.ts] and of the request handlers of [server/routes.ts],
    followed by the properties of the issue lifecycle, of the comment
    threads and of the statistics aggregation. *)

From Stdlib Require Import ZArith Lia.
From stdpp Require Import gmap strings list fin_maps sorting.

Local Open Scope string_scope.
Local Open Scope Z_scope.

(** ** JavaScript values and objects *)

(** The values that occur in request bodies and in stored records.  A
    [Date] is kept as its epoch time in milliseconds.  A number is kept as
    an integer and an array or a nested object of a JSON body as its text:
    the code only ever asks of them whether they are strings and whether
    they are truthy. *)
Inductive JVal : Type :=
  | JNull
  | JBool (b : bool)
  | JNum (n : Z)
  | JStr (s : string)
  | JDate (t : Z)
  | JComposite (json : string).

#[global] Instance JVal_eq_dec : EqDecision JVal.
Proof. solve_decision. Defined.

(** A plain object: property name to value.  Reading a missing property
    gives [undefined], here [None]. *)
Abbreviation Obj := (gmap string JVal).

(** [!!v] is true, as JavaScript coerces a value to a boolean. *)
Definition truthy (v : JVal) : bool :=
  match v with
  | JNull => false
  | JBool b => b
  | JNum n => negb (n =? 0)
  | JStr s => negb (String.eqb s "")
  | JDate _ => true
  | JComposite _ => true
  end.

(** [a || b] where [a] is a property read. *)
Definition js_or (a : option JVal) (b : JVal) : JVal :=
  match a with
  | Some v => if truthy v then v else b
  | None => b
  end.

(** [{ ...a, ...b }]: the properties of [b] win. *)
Definition spread (a b : Obj) : Obj := b ∪ a.

(** ** [Map<string, V>]

    A JavaScript [Map] iterates in insertion order, and [set] on a key
    already present replaces the value in place. *)
Module JsMap.

Definition t (V : Type) : Type := list (string * V).

Definition empty {V} : t V := [].

Fixpoint get {V} (k : string) (m : t V) : option V :=
  match m with
  | [] => None
  | (k', v) :: m' => if decide (k' = k) then Some v else get k m'
  end.

Fixpoint set {V} (k : string) (v : V) (m : t V) : t V :=
  match m with
  | [] => [(k, v)]
  | (k', v') :: m' =>
      if decide (k' = k) then (k, v) :: m' else (k', v') :: set k v m'
  end.

Definition values {V} (m : t V) : list V := m.*2.

Definition keys {V} (m : t V) : list string := m.*1.

End JsMap.

(** ** Dates

    [new Date(v).getTime()] for a property read [v].  The time stamps the
    storage writes are always [Date] objects ([createdAt] of a comment,
    [updatedAt] of an issue: see [run_well_formed] below), and only
    those are given a time here; any other value counts as an invalid date,
    whose time is [NaN] ([None]) and for which every comparison is false. *)
Definition getTime (v : option JVal) : option Z :=
  match v with
  | Some (JDate t) => Some t
  | _ => None
  end.

(** [new Date(v) >= today], with [today] a valid date. *)
Definition date_ge (v : option JVal) (today : Z) : bool :=
  match getTime v with
  | Some t => bool_decide (today ≤ t)
  | None => false
  end.

(** The local calendar of the process: [startOfDay t] is the time of the
    date that [setHours(0, 0, 0, 0)] makes of the date of time [t], the
    local midnight that opens the calendar day of [t]. *)
Record Calendar : Type := mkCalendar {
  startOfDay : Z → Z;
  startOfDay_le : ∀ t, startOfDay t ≤ t;
  startOfDay_mono : ∀ t u, t ≤ u → startOfDay t ≤ startOfDay u;
  startOfDay_idem : ∀ t, startOfDay (startOfDay t) = startOfDay t
}.

(** Two times fall on the same local calendar day. *)
Definition same_day (cal : Calendar) (t u : Z) : Prop :=
  startOfDay cal t = startOfDay cal u.

Definition msPerDay : Z := 86400000.

(** A calendar at a fixed offset from UTC, in milliseconds. *)
Program Definition fixedOffset (offset : Z) : Calendar :=
  {| startOfDay := λ t, t - (t + offset) `mod` msPerDay |}.
Next Obligation.
  intros offset t; simpl.
  pose proof (Z.mod_pos_bound (t + offset) msPerDay). unfold msPerDay in *. lia.
Qed.
Next Obligation.
  intros offset t u Htu; simpl.
  pose proof (Z.div_le_mono (t + offset) (u + offset) msPerDay).
  pose proof (Z.div_mod (t + offset) msPerDay).
  pose proof (Z.div_mod (u + offset) msPerDay).
  unfold msPerDay in *. lia.
Qed.
Next Obligation.
  intros offset t; simpl.
  replace (t - (t + offset) `mod` msPerDay + offset)
    with ((t + offset) - (t + offset) `mod` msPerDay) by lia.
  pose proof (Z.div_mod (t + offset) msPerDay).
  replace ((t + offset) - (t + offset) `mod` msPerDay)
    with (((t + offset) `div` msPerDay) * msPerDay) by (unfold msPerDay in *; lia).
  rewrite Z.mod_mul by (unfold msPerDay; lia). lia.
Qed.

Definition utc : Calendar := fixedOffset 0.

(** ** [Array.prototype.sort]

    The sort is stable; the comparator says that its first argument goes
    after its second by returning a positive number. *)
Fixpoint sort_insert {A} (cmp : A → A → Z) (x : A) (l : list A) : list A :=
  match l with
  | [] => [x]
  | y :: l' =>
      if decide (cmp x y ≤ 0) then x :: y :: l' else y :: sort_insert cmp x l'
  end.

Definition js_sort {A} (cmp : A → A → Z) (l : list A) : list A :=
  foldr (sort_insert cmp) [] l.

(** [new Date(a.createdAt).getTime() - new Date(b.createdAt).getTime()]; a
    comparator result of [NaN] is read as [0] by the sort. *)
Definition byCreatedAtAsc (a b : Obj) : Z :=
  match getTime (a !! "createdAt"), getTime (b !! "createdAt") with
  | Some x, Some y => x - y
  | _, _ => 0
  end.

(** ** The environment of one storage call

    What [randomUUID()] (or the database's [gen_random_uuid()]) and
    [new Date()] (or the database's [now()]) return during the call. *)
Record Env : Type := mkEnv { uuid : string; now : Z }.

(** The result of [getIssueStats]. *)
Record Stats : Type := mkStats {
  openIssues : nat;
  inProgress : nat;
  resolvedToday : nat;
  urgent : nat
}.

(** The body shared by the two [getIssueStats]: [today] is the local
    midnight and [issues] the array that is scanned. *)
Definition countStats (today : Z) (issues : list Obj) : Stats :=
  {| openIssues :=
       length (filter (λ issue : Obj, issue !! "status" = Some (JStr "open")) issues);
     inProgress :=
       length (filter (λ issue : Obj, issue !! "status" = Some (JStr "in-progress")) issues);
     resolvedToday :=
       length (filter (λ issue : Obj,
                 issue !! "status" = Some (JStr "resolved")
                 ∧ date_ge (issue !! "updatedAt") today = true) issues);
     urgent :=
       length (filter (λ issue : Obj, issue !! "priority" = Some (JStr "urgent")) issues) |}.

(** ** [MemStorage] *)
Module MemStorage.

Record t : Type := mk {
  issues : JsMap.t Obj;
  comments : JsMap.t Obj
}.

(** [constructor()] *)
Definition new : t := mk JsMap.empty JsMap.empty.

Definition getIssue (st : t) (id : string) : option Obj :=
  JsMap.get id (issues st).

Definition createIssue (e : Env) (st : t) (insertIssue : Obj) : t * Obj :=
  let id := uuid e in
  let now := now e in
  let issue : Obj :=
    <["updatedAt" := JDate now]>
    (<["createdAt" := JDate now]>
    (<["id" := JStr id]>
    (<["assignedTo" := js_or (insertIssue !! "assignedTo") JNull]>
    (<["priority" := js_or (insertIssue !! "priority") (JStr "medium")]>
    (<["status" := js_or (insertIssue !! "status") (JStr "open")]>
     insertIssue))))) in
  (mk (JsMap.set id issue (issues st)) (comments st), issue).

Definition updateIssue (e : Env) (st : t) (id : string) (updates : Obj)
  : t * option Obj :=
  match JsMap.get id (issues st) with
  | None => (st, None)
  | Some issue =>
      let updatedIssue : Obj :=
        <["updatedAt" := JDate (now e)]> (spread issue updates) in
      (mk (JsMap.set id updatedIssue (issues st)) (comments st),
       Some updatedIssue)
  end.

Definition getCommentsByIssueId (st : t) (issueId : string) : list Obj :=
  js_sort byCreatedAtAsc
    (filter (λ comment : Obj, comment !! "issueId" = Some (JStr issueId))
       (JsMap.values (comments st))).

Definition createComment (e : Env) (st : t) (insertComment : Obj) : t * Obj :=
  let id := uuid e in
  let comment : Obj :=
    <["createdAt" := JDate (now e)]>
    (<["id" := JStr id]>
    (<["isInternal" := js_or (insertComment !! "isInternal") (JStr "false")]>
     insertComment)) in
  (mk (issues st) (JsMap.set id comment (comments st)), comment).

Definition getIssueStats (cal : Calendar) (e : Env) (st : t) : Stats :=
  let issues := JsMap.values (issues st) in
  let today := startOfDay cal (now e) in
  countStats today issues.

End MemStorage.

(** ** [DatabaseStorage]

    The durable realisation keeps the issues and the comments as the rows
    of two tables, here in the order of their insertion.  The query
    builder and the database are not part of the repository; the three
    operations below rely on them as follows.  [select().from(t)] yields
    the rows of [t], [where(eq(c, v))] keeps those whose column [c] is
    [v], and [orderBy(asc(c))] sorts by [c], the order among rows of equal
    [c], which the database leaves open, being taken as the stable one.
    [insert(t).values(v).returning()] adds and yields the row that has the
    columns of [v] and, for every other column, the default of the table
    definition in [shared/schema.ts] ([null] for a nullable column without
    a default).  Violations of constraints are not modelled. *)
Module DatabaseStorage.

Record t : Type := mk {
  issues : list Obj;
  comments : list Obj
}.

(** The defaults of the columns of [issues]. *)
Definition issueDefaults (e : Env) : Obj :=
  {[ "id" := JStr (uuid e);
     "priority" := JStr "medium";
     "status" := JStr "open";
     "assignedTo" := JNull;
     "createdAt" := JDate (now e);
     "updatedAt" := JDate (now e) ]}.

Definition createIssue (e : Env) (db : t) (insertIssue : Obj) : t * Obj :=
  let issueData : Obj :=
    <["assignedTo" := js_or (insertIssue !! "assignedTo") JNull]>
    (<["priority" := js_or (insertIssue !! "priority") (JStr "medium")]>
    (<["status" := js_or (insertIssue !! "status") (JStr "open")]>
     insertIssue)) in
  let row : Obj := issueData ∪ issueDefaults e in
  (mk (issues db ++ [row]) (comments db), row).

Definition getCommentsByIssueId (db : t) (issueId : string) : list Obj :=
  js_sort byCreatedAtAsc
    (filter (λ comment : Obj, comment !! "issueId" = Some (JStr issueId))
       (comments db)).

Definition getIssueStats (cal : Calendar) (e : Env) (db : t) : Stats :=
  let today := startOfDay cal (now e) in
  let allIssues := issues db in
  countStats today allIssues.

End DatabaseStorage.

(** ** The insert schemas of [shared/schema.ts]

    [createInsertSchema] turns a table into an object schema: a [text] or
    [varchar] column becomes a string field, required when the column is
    [notNull] without a default, optional when it is [notNull] with a
    default, and optional and nullable when the column is nullable.  No
    column of these tables is declared with an enumeration of values. *)
Inductive FieldKind : Type :=
  | Required
  | Optional
  | OptionalNullable.

#[global] Instance FieldKind_eq_dec : EqDecision FieldKind.
Proof. solve_decision. Defined.

Definition Schema : Type := list (string * FieldKind).

(** [createInsertSchema(issues).omit({ id, createdAt, updatedAt })] *)
Definition insertIssueSchema : Schema :=
  [ ("title", Required);
    ("description", Required);
    ("customerName", Required);
    ("customerEmail", Required);
    ("priority", Optional);
    ("status", Optional);
    ("assignedTo", OptionalNullable) ].

(** [createInsertSchema(comments).omit({ id, createdAt })] *)
Definition insertCommentSchema : Schema :=
  [ ("issueId", Required);
    ("author", Required);
    ("content", Required);
    ("isInternal", Optional) ].

(** [Partial<T>]: every field may be left out. *)
Definition partial (s : Schema) : Schema :=
  map (λ f, (f.1, match f.2 with Required => Optional | k => k end)) s.

Definition field_ok (k : FieldKind) (v : option JVal) : bool :=
  match v, k with
  | Some (JStr _), _ => true
  | None, (Optional | OptionalNullable) => true
  | Some JNull, OptionalNullable => true
  | _, _ => false
  end.

(** The fields whose value the schema refuses. *)
Definition issuesOf (s : Schema) (data : Obj) : list string :=
  (filter (λ f, field_ok f.2 (data !! f.1) = false) s).*1.

(** The parsed object keeps the fields of the schema that the input has
    and drops every other key. *)
Definition strip (s : Schema) (data : Obj) : Obj :=
  foldr (λ f out, match data !! f.1 with
                  | Some v => <[f.1 := v]> out
                  | None => out
                  end) ∅ s.

(** A thrown value: an [Error] with its message, or anything else. *)
Inductive Exn : Type :=
  | Error (message : string)
  | Thrown.

#[global] Instance Exn_eq_dec : EqDecision Exn.
Proof. solve_decision. Defined.

(** The message of a [ZodError] is the JSON text of its issues; it is
    stood for by the paths that the issues report. *)
Definition zodMessage (paths : list string) : string :=
  String.concat ", " paths.

(** [schema.parse(data)] *)
Definition parse (s : Schema) (data : Obj) : Exn + Obj :=
  match issuesOf s data with
  | [] => inr (strip s data)
  | paths => inl (Error (zodMessage paths))
  end.

(** The objects of the type that a schema infers. *)
Definition conforms (s : Schema) (o : Obj) : Prop := parse s o = inr o.

#[global] Instance conforms_dec s o : Decision (conforms s o).
Proof. unfold conforms. apply _. Defined.

(** ** Computations that keep a state and may throw *)
Definition M (Σ A : Type) : Type := Σ → (Exn + A) * Σ.

Definition ret {Σ A} (a : A) : M Σ A := λ σ, (inr a, σ).

Definition bind {Σ A B} (m : M Σ A) (k : A → M Σ B) : M Σ B :=
  λ σ, match m σ with
       | (inr a, σ') => k a σ'
       | (inl x, σ') => (inl x, σ')
       end.

(** [try { m } catch (error) { h error }] *)
Definition try_catch {Σ A} (m : M Σ A) (h : Exn → M Σ A) : M Σ A :=
  λ σ, match m σ with
       | (inr a, σ') => (inr a, σ')
       | (inl x, σ') => h x σ'
       end.

(** A thrown value or a result, with no effect on the state. *)
Definition lift {Σ A} (r : Exn + A) : M Σ A := λ σ, (r, σ).

Notation "'await' x := m 'in' k" := (bind m (λ x, k))
  (at level 10, x name, m at level 100, k at level 200, only parsing).

(** ** [IStorage]

    The contract of the data-access layer, for the operations on issues,
    comments and statistics that are studied here.  Every operation is
    asynchronous and may reject. *)
Class IStorage (S : Type) : Type := {
  getIssue : string → M S (option Obj);
  createIssue : Env → Obj → M S Obj;
  updateIssue : Env → string → Obj → M S (option Obj);
  getCommentsByIssueId : string → M S (list Obj);
  createComment : Env → Obj → M S Obj;
  getIssueStats : Calendar → Env → M S Stats
}.

#[global] Instance MemStorage_IStorage : IStorage MemStorage.t := {|
  getIssue id := λ st, (inr (MemStorage.getIssue st id), st);
  createIssue e insertIssue := λ st,
    let r := MemStorage.createIssue e st insertIssue in (inr r.2, r.1);
  updateIssue e id updates := λ st,
    let r := MemStorage.updateIssue e st id updates in (inr r.2, r.1);
  getCommentsByIssueId issueId := λ st,
    (inr (MemStorage.getCommentsByIssueId st issueId), st);
  createComment e insertComment := λ st,
    let r := MemStorage.createComment e st insertComment in (inr r.2, r.1);
  getIssueStats cal e := λ st, (inr (MemStorage.getIssueStats cal e st), st)
|}.

(** ** The request handlers of [server/routes.ts] *)

(** A call of the data-access layer, with its arguments. *)
Inductive Call : Type :=
  | CallGetIssue (id : string)
  | CallCreateIssue (insertIssue : Obj)
  | CallUpdateIssue (id : string) (updates : Obj)
  | CallGetCommentsByIssueId (issueId : string)
  | CallCreateComment (insertComment : Obj)
  | CallGetIssueStats.

(** The server while it handles a request: the [storage] singleton and the
    calls the handler has made on it so far. *)
Record Server (S : Type) : Type := mkServer {
  storage : S;
  calls : list Call
}.
Arguments mkServer {S} _ _.
Arguments storage {S} _.
Arguments calls {S} _.

(** [await storage.op(...)], recorded. *)
Definition call {S A} (c : Call) (op : M S A) : M (Server S) A :=
  λ srv, let r := op (storage srv) in
         (r.1, mkServer r.2 (calls srv ++ [c])).

(** [res.status(code).json(body)] *)
Record Response : Type := mkResponse {
  statusCode : Z;
  json : Obj
}.

Definition message (m : string) : Obj := {[ "message" := JStr m ]}.

Section Routes.
Context {S : Type} `{IStorage S}.

(** [app.post('/api/issues', ...)] *)
Definition post_issue (e : Env) (body : Obj) : M (Server S) Response :=
  try_catch
    (await validatedData := lift (parse insertIssueSchema body) in
     await issue := call (CallCreateIssue validatedData) (createIssue e validatedData) in
     ret (mkResponse 201 issue))
    (λ error,
       match error with
       | Error m => ret (mkResponse 400 (message m))
       | Thrown => ret (mkResponse 500 (message "Failed to create issue"))
       end).

(** [app.patch('/api/issues/:id', ...)] *)
Definition patch_issue (e : Env) (id : string) (body : Obj)
  : M (Server S) Response :=
  try_catch
    (let updates := body in
     await issue := call (CallUpdateIssue id updates) (updateIssue e id updates) in
     match issue with
     | None => ret (mkResponse 404 (message "Issue not found"))
     | Some issue => ret (mkResponse 200 issue)
     end)
    (λ error, ret (mkResponse 500 (message "Failed to update issue"))).

(** [app.post('/api/issues/:id/comments', ...)] *)
Definition post_comment (e : Env) (id : string) (body : Obj)
  : M (Server S) Response :=
  try_catch
    (await issue := call (CallGetIssue id) (getIssue id) in
     match issue with
     | None => ret (mkResponse 404 (message "Issue not found"))
     | Some _ =>
         let commentData := <["issueId" := JStr id]> body in
         await validatedData := lift (parse insertCommentSchema commentData) in
         await comment := call (CallCreateComment validatedData)
                        (createComment e validatedData) in
         ret (mkResponse 201 comment)
     end)
    (λ error,
       match error with
       | Error m => ret (mkResponse 400 (message m))
       | Thrown => ret (mkResponse 500 (message "Failed to create comment"))
       end).

End Routes.

(** A request as it reaches the server: the handler runs on the storage
    with an empty record of calls. *)
Definition serve {S} (h : M (Server S) Response) (st : S)
  : (Exn + Response) * Server S :=
  h (mkServer st []).

(** ** Specification vocabulary *)

#[global] Instance from_option_dec {A} (P : A → Prop) `{∀ x, Decision (P x)}
  (o : option A) : Decision (from_option P False o).
Proof. destruct o; simpl; apply _. Defined.

Definition has_status (s : string) (issue : Obj) : Prop :=
  issue !! "status" = Some (JStr s).

Definition has_priority (p : string) (issue : Obj) : Prop :=
  issue !! "priority" = Some (JStr p).

#[global] Instance has_status_dec s issue : Decision (has_status s issue).
Proof. unfold has_status. apply _. Defined.

#[global] Instance has_priority_dec p issue : Decision (has_priority p issue).
Proof. unfold has_priority. apply _. Defined.

(** The field [f] of the record holds a date of time [t]. *)
Definition stamp (f : string) (o : Obj) (t : Z) : Prop :=
  o !! f = Some (JDate t).

(** The issue was last updated on the local calendar day of [now]. *)
Definition updated_on_day (cal : Calendar) (now : Z) (issue : Obj) : Prop :=
  from_option (λ u, same_day cal u now) False (getTime (issue !! "updatedAt")).

#[global] Instance updated_on_day_dec cal now issue :
  Decision (updated_on_day cal now issue).
Proof. unfold updated_on_day, same_day. apply _. Defined.

(** The number of issues of the store that satisfy [P]: the size of the
    set of the identifiers under which the store holds such an issue. *)
Definition number_of_issues (st : MemStorage.t)
    (P : Obj → Prop) `{∀ i, Decision (P i)} : nat :=
  size (filter (λ id, from_option P False (MemStorage.getIssue st id))
          (list_to_set (JsMap.keys (MemStorage.issues st)) : gset string)).

(** The names that [createIssue] writes itself. *)
Definition createdFields : list string :=
  ["status"; "priority"; "assignedTo"; "id"; "createdAt"; "updatedAt"].

(** [a] was created no later than [b]. *)
Definition created_le (a b : Obj) : Prop :=
  ∃ x y, stamp "createdAt" a x ∧ stamp "createdAt" b y ∧ x ≤ y.

(** The comment belongs to the issue [x]. *)
Definition of_issue (x : string) (comment : Obj) : Prop :=
  comment !! "issueId" = Some (JStr x).

#[global] Instance of_issue_dec x comment : Decision (of_issue x comment).
Proof. unfold of_issue. apply _. Defined.

(** ** Histories

    The writing operations of the data-access layer, each with the
    environment of its call. *)
Inductive Op : Type :=
  | OpCreateIssue (e : Env) (insertIssue : Obj)
  | OpUpdateIssue (e : Env) (id : string) (updates : Obj)
  | OpCreateComment (e : Env) (insertComment : Obj).

(** The time that the clock shows during the operation. *)
Definition op_time (op : Op) : Z :=
  match op with
  | OpCreateIssue e _ | OpUpdateIssue e _ _ | OpCreateComment e _ => now e
  end.

(** The operation is called at its TypeScript type. *)
Definition op_typed (op : Op) : Prop :=
  match op with
  | OpCreateIssue _ insertIssue => conforms insertIssueSchema insertIssue
  | OpUpdateIssue _ _ updates => conforms (partial insertIssueSchema) updates
  | OpCreateComment _ insertComment => conforms insertCommentSchema insertComment
  end.

#[global] Instance op_typed_dec op : Decision (op_typed op).
Proof. destruct op; simpl; apply _. Defined.

(** The operation leaves the creation date alone: an update supplies no
    [createdAt].  The type [Partial<InsertIssue>] has no such property,
    but [updateIssue] spreads whatever properties its argument has. *)
Definition op_keeps_createdAt (op : Op) : Prop :=
  match op with
  | OpUpdateIssue _ _ updates => updates !! "createdAt" = None
  | _ => True
  end.

#[global] Instance op_keeps_createdAt_dec op : Decision (op_keeps_createdAt op).
Proof. destruct op; simpl; apply _. Defined.

Definition step (st : MemStorage.t) (op : Op) : MemStorage.t :=
  match op with
  | OpCreateIssue e insertIssue => (MemStorage.createIssue e st insertIssue).1
  | OpUpdateIssue e id updates => (MemStorage.updateIssue e st id updates).1
  | OpCreateComment e insertComment =>
      (MemStorage.createComment e st insertComment).1
  end.

(** The store after the operations [ops], in this order, on [st]. *)
Definition run (ops : list Op) (st : MemStorage.t) : MemStorage.t :=
  fold_left step ops st.

(** The time stamps of an issue are dates, [createdAt] not after
    [updatedAt], and [updatedAt] is one of the times [ts]. *)
Definition stamped_within (ts : list Z) (issue : Obj) : Prop :=
  ∃ c u, stamp "createdAt" issue c ∧ stamp "updatedAt" issue u
         ∧ c ≤ u ∧ u ∈ ts.

(** [v || d] for a validated optional string field. *)
Definition or_default (v : option JVal) (d : string) : string :=
  match v with
  | Some (JStr s) => if decide (s = "") then d else s
  | _ => d
  end.

(** The shape of a store that the operations maintain: no identifier
    occurs twice, every issue carries the date of its last update and every
    comment the date of its creation, each among the times [ts]. *)
Definition well_formed (ts : list Z) (st : MemStorage.t) : Prop :=
  NoDup (JsMap.keys (MemStorage.issues st))
  ∧ NoDup (JsMap.keys (MemStorage.comments st))
  ∧ (∀ issue, issue ∈ JsMap.values (MemStorage.issues st) →
       ∃ u, stamp "updatedAt" issue u ∧ u ∈ ts)
  ∧ (∀ comment, comment ∈ JsMap.values (MemStorage.comments st) →
       ∃ t, stamp "createdAt" comment t ∧ t ∈ ts).

(** The two realisations hold the same records in the same order. *)
Definition same_records (st : MemStorage.t) (db : DatabaseStorage.t) : Prop :=
  DatabaseStorage.issues db = JsMap.values (MemStorage.issues st)
  ∧ DatabaseStorage.comments db = JsMap.values (MemStorage.comments st).

(** ** The remaining queries of [MemStorage] *)

(** [new Date(b.createdAt).getTime() - new Date(a.createdAt).getTime()];
    as for [getTime], the dates meant are the [Date] objects that
    [createIssue] writes. *)
Definition byCreatedAtDesc (a b : Obj) : Z :=
  match getTime (b !! "createdAt"), getTime (a !! "createdAt") with
  | Some y, Some x => y - x
  | _, _ => 0
  end.

Module MemQueries.

Definition getAllIssues (st : MemStorage.t) : list Obj :=
  js_sort byCreatedAtDesc (JsMap.values (MemStorage.issues st)).

Definition getIssuesByCustomerEmail (st : MemStorage.t) (email : string)
  : list Obj :=
  js_sort byCreatedAtDesc
    (filter (λ issue : Obj, issue !! "customerEmail" = Some (JStr email))
       (JsMap.values (MemStorage.issues st))).

End MemQueries.

(** The issue was submitted under exactly this e-mail address. *)
Definition of_customer (email : string) (issue : Obj) : Prop :=
  issue !! "customerEmail" = Some (JStr email).

#[global] Instance of_customer_dec email issue : Decision (of_customer email issue).
Proof. unfold of_customer. apply _. Defined.

(** The comparator orders the elements of [l]: of two elements one is
    not after the other, and being not after is transitive. *)
Definition orders {A} (cmp : A → A → Z) (l : list A) : Prop :=
  (∀ x y, x ∈ l → y ∈ l → ¬ cmp x y ≤ 0 → cmp y x ≤ 0)
  ∧ (∀ x y z, x ∈ l → y ∈ l → z ∈ l →
       cmp x y ≤ 0 → cmp y z ≤ 0 → cmp x z ≤ 0).

(** Every issue of the store carries its creation date. *)
Definition issues_dated (st : MemStorage.t) : Prop :=
  ∀ issue, issue ∈ JsMap.values (MemStorage.issues st) →
    ∃ t, stamp "createdAt" issue t.

(** ** The users of [MemStorage]

    The [users] map of the class; the methods on issues and comments
    neither read nor write it. *)
Module MemUsers.

Definition t : Type := JsMap.t Obj.

Definition getUser (users : t) (id : string) : option Obj :=
  JsMap.get id users.

(** [Array.from(this.users.values()).find(...)]: the first user, in the
    order of the map, whose name it is. *)
Definition getUserByUsername (users : t) (username : string) : option Obj :=
  List.find (λ user : Obj,
               bool_decide (user !! "username" = Some (JStr username)))
    (JsMap.values users).

Definition createUser (e : Env) (users : t) (insertUser : Obj) : t * Obj :=
  let id := uuid e in
  let user : Obj := <["id" := JStr id]> insertUser in
  (JsMap.set id user users, user).

End MemUsers.

(** ** The reading handlers of [server/routes.ts] *)

(** The two listing operations of [IStorage]. *)
Class IStorageLists (S : Type) : Type := {
  getAllIssues : M S (list Obj);
  getIssuesByCustomerEmail : string → M S (list Obj)
}.

#[global] Instance MemStorage_IStorageLists : IStorageLists MemStorage.t := {|
  getAllIssues := λ st, (inr (MemQueries.getAllIssues st), st);
  getIssuesByCustomerEmail email := λ st,
    (inr (MemQueries.getIssuesByCustomerEmail st email), st)
|}.

(** The JSON that a reading handler sends: a message, a list of issues,
    an issue with its thread under the key [comments], or the counts. *)
Inductive Payload : Type :=
  | PMessage (o : Obj)
  | PIssues (issues : list Obj)
  | PIssue (issue : Obj) (comments : list Obj)
  | PStats (stats : Stats).

(** [res.status(code).json(payload)]; [res.json(payload)] sends 200. *)
Record Reply : Type := mkReply {
  replyStatus : Z;
  payload : Payload
}.

Section Reads.
Context {S : Type} `{IStorage S} `{IStorageLists S}.

(** [app.get('/api/issues', ...)] *)
Definition get_issues : M S Reply :=
  try_catch
    (await issues := getAllIssues in
     ret (mkReply 200 (PIssues issues)))
    (λ error, ret (mkReply 500 (PMessage (message "Failed to fetch issues")))).

(** [app.get('/api/issues/customer/:email', ...)] *)
Definition get_customer_issues (email : string) : M S Reply :=
  try_catch
    (await issues := getIssuesByCustomerEmail email in
     ret (mkReply 200 (PIssues issues)))
    (λ error,
       ret (mkReply 500 (PMessage (message "Failed to fetch customer issues")))).

(** [app.get('/api/issues/:id', ...)]; in [{ ...issue, comments }] the
    thread takes the place of a property [comments] of the issue. *)
Definition get_issue (id : string) : M S Reply :=
  try_catch
    (await issue := getIssue id in
     match issue with
     | None => ret (mkReply 404 (PMessage (message "Issue not found")))
     | Some issue =>
         await comments := getCommentsByIssueId id in
         ret (mkReply 200 (PIssue (delete "comments" issue) comments))
     end)
    (λ error, ret (mkReply 500 (PMessage (message "Failed to fetch issue")))).

(** [app.get('/api/stats', ...)] *)
Definition get_stats (cal : Calendar) (e : Env) : M S Reply :=
  try_catch
    (await stats := getIssueStats cal e in
     ret (mkReply 200 (PStats stats)))
    (λ error,
       ret (mkReply 500 (PMessage (message "Failed to fetch statistics")))).

End Reads.

(** Run a reading handler: unfold the plumbing under it. *)
Ltac run_read :=
  unfold get_issues, get_customer_issues, get_issue, get_stats,
    try_catch, bind, call, lift, ret.

(** ** The issue list of [client/src/pages/team-dashboard.tsx] *)

(** [s.includes(t)] *)
Fixpoint includes (s t : string) : bool :=
  String.prefix t s
  || match s with
     | EmptyString => false
     | String _ s' => includes s' t
     end.

(** [a || b] where evaluating either side may throw; [None] is a throw,
    and [b] is evaluated only when [a] is false. *)
Definition orElse (a b : option bool) : option bool :=
  match a with
  | Some false => b
  | _ => a
  end.

(** [array.filter(callback)] where the callback may throw. *)
Fixpoint filter_throwing {A} (callback : A → option bool) (l : list A)
  : option (list A) :=
  match l with
  | [] => Some []
  | x :: l' =>
      match callback x with
      | None => None
      | Some keep =>
          match filter_throwing callback l' with
          | None => None
          | Some rest => Some (if keep then x :: rest else rest)
          end
      end
  end.

Section Dashboard.

(** [String.prototype.toLowerCase] *)
Variable toLowerCase : string → string.

(** [field.toLowerCase().includes(searchTerm.toLowerCase())]: only a
    string has the method. *)
Definition fieldMatches (field : option JVal) (searchTerm : string)
  : option bool :=
  match field with
  | Some (JStr s) => Some (includes (toLowerCase s) (toLowerCase searchTerm))
  | _ => None
  end.

Definition matchesSearch (issue : Obj) (searchTerm : string) : option bool :=
  orElse
    (orElse
       (orElse (fieldMatches (issue !! "title") searchTerm)
          (fieldMatches (issue !! "description") searchTerm))
       (fieldMatches (issue !! "customerName") searchTerm))
    (fieldMatches (issue !! "customerEmail") searchTerm).

Definition matchesStatus (issue : Obj) (statusFilter : string) : bool :=
  negb (truthy (JStr statusFilter))
  || String.eqb statusFilter "all"
  || bool_decide (issue !! "status" = Some (JStr statusFilter)).

Definition matchesPriority (issue : Obj) (priorityFilter : string) : bool :=
  negb (truthy (JStr priorityFilter))
  || String.eqb priorityFilter "all"
  || bool_decide (issue !! "priority" = Some (JStr priorityFilter)).

Definition activeIssues (issues : list Obj) : list Obj :=
  filter (λ issue : Obj, issue !! "status" ≠ Some (JStr "resolved")) issues.

Definition filteredIssues (issues : list Obj)
    (searchTerm statusFilter priorityFilter : string) : option (list Obj) :=
  filter_throwing
    (λ issue,
       match matchesSearch issue searchTerm with
       | None => None
       | Some found =>
           Some (found && matchesStatus issue statusFilter
                 && matchesPriority issue priorityFilter)
       end)
    (activeIssues issues).

End Dashboard.

(** The four fields that the search reads are strings. *)
Definition searchable (issue : Obj) : Prop :=
  ∀ k, k ∈ ["title"; "description"; "customerName"; "customerEmail"] →
    ∃ s, issue !! k = Some (JStr s).

(** The status is one of the three that the application knows. *)
Definition status_known (issue : Obj) : Prop :=
  has_status "open" issue ∨ has_status "in-progress" issue
  ∨ has_status "resolved" issue.

#[global] Instance status_known_dec issue : Decision (status_known issue).
Proof. unfold status_known. apply _. Defined.

(** ** The comment form of the issue detail modal *)

Section Modal.

(** [String.prototype.trim] *)
Variable trim : string → string.

(** [handleAddComment]: what is handed to the mutation that posts the
    comment, if anything is. *)
Definition handleAddComment (newComment : string) (notifyCustomer : bool)
  : option Obj :=
  if negb (truthy (JStr (trim newComment))) then None
  else Some {[ "author" := JStr "Team Member";
               "content" := JStr newComment;
               "isInternal" := JStr (if notifyCustomer then "false" else "true") ]}.

End Modal.

(** ** The form schema of [client/src/pages/customer-interface.tsx] *)

(** A field of an extended schema: as the table gave it, or a required
    string with a check of its own. *)
Inductive FormField : Type :=
  | Plain (kind : FieldKind)
  | Checked (check : string → bool).

Definition FormSchema : Type := list (string * FormField).

(** [schema.extend(augmentation)]: a field that the schema has is replaced
    where it stands, a new one is added at the end. *)
Definition extend (s : Schema) (augmentation : list (string * (string → bool)))
  : FormSchema :=
  (map (λ f : string * FieldKind,
          (f.1, match List.find (λ a, String.eqb a.1 f.1) augmentation with
                | Some a => Checked a.2
                | None => Plain f.2
                end)) s
   ++ map (λ a, (a.1, Checked a.2))
        (filter (λ a : string * (string → bool), a.1 ∉ s.*1) augmentation))%list.

Definition form_field_ok (f : FormField) (v : option JVal) : bool :=
  match f with
  | Plain kind => field_ok kind v
  | Checked check =>
      match v with
      | Some (JStr s) => check s
      | _ => false
      end
  end.

Definition stripForm (s : FormSchema) (data : Obj) : Obj :=
  foldr (λ f out, match data !! f.1 with
                  | Some v => <[f.1 := v]> out
                  | None => out
                  end) ∅ s.

(** [schema.parse(data)] for an extended schema. *)
Definition parseForm (s : FormSchema) (data : Obj) : Exn + Obj :=
  match (filter (λ f, form_field_ok f.2 (data !! f.1) = false) s).*1 with
  | [] => inr (stripForm s data)
  | paths => inl (Error (zodMessage paths))
  end.

Section Form.

(** The [length] of a string, and the e-mail pattern of [z.string().email()]. *)
Variable length : string → nat.
Variable isEmail : string → bool.

(** [z.string().min(n, message)] *)
Definition min (n : nat) (s : string) : bool := (n <=? length s)%nat.

Definition formSchema : FormSchema :=
  extend insertIssueSchema
    [ ("customerName", min 1);
      ("customerEmail", isEmail);
      ("title", min 1);
      ("description", min 10) ].

End Form.

(** ** Sample data *)

(** An issue as [createIssue] stores it. *)
Definition sampleIssue (id title status priority : string) (created updated : Z)
  : Obj :=
  {[ "id" := JStr id; "title" := JStr title; "description" := JStr "details";
     "customerName" := JStr "Ada"; "customerEmail" := JStr "ada@example.org";
     "priority" := JStr priority; "status" := JStr status;
     "assignedTo" := JNull;
     "createdAt" := JDate created; "updatedAt" := JDate updated ]}.

(** 14 November 2023, 22:13:20 UTC; the UTC day starts at 1699920000000. *)
Definition sampleNow : Z := 1700000000000.

Definition issueA := sampleIssue "a" "A" "open" "low" 1699800000000 1699800000000.
Definition issueB := sampleIssue "b" "B" "in-progress" "medium" 1699800000001 1699950000000.
Definition issueC := sampleIssue "c" "C" "resolved" "high" 1699800000002 1699990000000.
Definition issueD := sampleIssue "d" "D" "resolved" "low" 1699800000003 1699900000000.
Definition issueE := sampleIssue "e" "E" "open" "urgent" 1699800000004 1699800000004.

Definition fiveIssues : MemStorage.t :=
  MemStorage.mk
    [("a", issueA); ("b", issueB); ("c", issueC); ("d", issueD); ("e", issueE)]
    [].

(** The fields of a customer submission that leaves the optional ones
    out. *)
Definition sampleInsertIssue : Obj :=
  {[ "title" := JStr "Printer on fire"; "description" := JStr "details";
     "customerName" := JStr "Ada"; "customerEmail" := JStr "ada@example.org" ]}.

(** A submission that carries a status, and the record it leads to. *)
Definition resolvedSubmission : Obj :=
  <["status" := JStr "resolved"]> sampleInsertIssue.

Definition resolvedIssue : Obj :=
  {[ "id" := JStr "id-1"; "title" := JStr "Printer on fire";
     "description" := JStr "details";
     "customerName" := JStr "Ada"; "customerEmail" := JStr "ada@example.org";
     "priority" := JStr "medium"; "status" := JStr "resolved";
     "assignedTo" := JNull;
     "createdAt" := JDate sampleNow; "updatedAt" := JDate sampleNow ]}.

(** A comment as [createComment] stores it. *)
Definition sampleComment (id issueId author : string) (created : Z) : Obj :=
  {[ "id" := JStr id; "issueId" := JStr issueId; "author" := JStr author;
     "content" := JStr "text"; "isInternal" := JStr "false";
     "createdAt" := JDate created ]}.

Definition commentC1 := sampleComment "c1" "a" "Ada" 1699800000300.
Definition commentC2 := sampleComment "c2" "b" "Bob" 1699800000100.
Definition commentC3 := sampleComment "c3" "a" "Cy" 1699800000200.

(** The five issues with a thread on [a] that was stored out of order. *)
Definition sampleThread : MemStorage.t :=
  MemStorage.mk (MemStorage.issues fiveIssues)
    [("c1", commentC1); ("c2", commentC2); ("c3", commentC3)].

(** A submission, then its resolution ten seconds later. *)
Definition sampleHistory : list Op :=
  [ OpCreateIssue (mkEnv "id-1" sampleNow) sampleInsertIssue;
    OpUpdateIssue (mkEnv "" (sampleNow + 10000)) "id-1"
      {[ "status" := JStr "resolved" ]} ].

(** An update that supplies a creation date of its own, later than the
    update, and the history and the record it leads to. *)
Definition postdatedUpdate : Obj :=
  {[ "createdAt" := JDate (sampleNow + 20000) ]}.

Definition postdatedHistory : list Op :=
  [ OpCreateIssue (mkEnv "id-1" sampleNow) sampleInsertIssue;
    OpUpdateIssue (mkEnv "" (sampleNow + 10000)) "id-1" postdatedUpdate ].

Definition postdatedIssue : Obj :=
  {[ "id" := JStr "id-1"; "title" := JStr "Printer on fire";
     "description" := JStr "details";
     "customerName" := JStr "Ada"; "customerEmail" := JStr "ada@example.org";
     "priority" := JStr "medium"; "status" := JStr "open";
     "assignedTo" := JNull;
     "createdAt" := JDate (sampleNow + 20000);
     "updatedAt" := JDate (sampleNow + 10000) ]}.

(** The same as a JSON body has it, where a date is a string, and the
    record that [PATCH /api/issues/id-1] leaves with it. *)
Definition redatingPatch : Obj :=
  {[ "createdAt" := JStr "2099-01-01T00:00:00.000Z" ]}.

Definition redatedIssue : Obj :=
  <["createdAt" := JStr "2099-01-01T00:00:00.000Z"]> postdatedIssue.

(** A comment body that names another issue than the path does. *)
Definition sampleCommentBody : Obj :=
  {[ "issueId" := JStr "b"; "author" := JStr "Ada"; "content" := JStr "text" ]}.

(** An update whose status is a number, and issue [a] after it. *)
Definition numericPatch : Obj := {[ "status" := JNum 5 ]}.

Definition patchedA : Obj :=
  <["updatedAt" := JDate sampleNow]> (<["status" := JNum 5]> issueA).

(** A submission whose status is none of [open], [in-progress] and
    [resolved], and the record it leads to. *)
Definition bogusSubmission : Obj :=
  <["status" := JStr "bogus"]> sampleInsertIssue.

Definition bogusIssue : Obj :=
  {[ "id" := JStr "id-1"; "title" := JStr "Printer on fire";
     "description" := JStr "details";
     "customerName" := JStr "Ada"; "customerEmail" := JStr "ada@example.org";
     "priority" := JStr "medium"; "status" := JStr "bogus";
     "assignedTo" := JNull;
     "createdAt" := JDate sampleNow; "updatedAt" := JDate sampleNow ]}.

(** A submission without a title. *)
Definition untitledSubmission : Obj := delete "title" sampleInsertIssue.

#[global] Instance stamp_dec f o t : Decision (stamp f o t).
Proof. unfold stamp. apply _. Defined.

(** The five sample issues, newest first. *)
Definition fiveNewestFirst : list Obj :=
  [issueE; issueD; issueC; issueB; issueA].

(** The names that [createComment] writes itself. *)
Definition commentFields : list string := ["isInternal"; "id"; "createdAt"].

(** A comment of the team on issue [a], and the comment stored for it. *)
Definition sampleInsertComment : Obj :=
  {[ "issueId" := JStr "a"; "author" := JStr "Team Member";
     "content" := JStr "On it"; "isInternal" := JStr "true" ]}.

Definition commentC4 : Obj :=
  {[ "id" := JStr "c4"; "issueId" := JStr "a"; "author" := JStr "Team Member";
     "content" := JStr "On it"; "isInternal" := JStr "true";
     "createdAt" := JDate sampleNow ]}.

(** [1] when the proposition holds and [0] when it does not. *)
Definition indicator (P : Prop) `{Decision P} : nat :=
  if decide P then 1%nat else 0%nat.

(** Two registrations under the name [ada]. *)
Definition sampleUsers : MemUsers.t :=
  [("u1", {[ "id" := JStr "u1"; "username" := JStr "ada";
             "password" := JStr "first" ]})].

Definition sampleInsertUser : Obj :=
  {[ "username" := JStr "ada"; "password" := JStr "second" ]}.

(** A storage that cannot be reached: every operation rejects with the
    same [Error]. *)
Definition refused {A} : M () A := lift (inl (Error "connection refused")).

#[global] Instance Offline_IStorage : IStorage () := {|
  getIssue _ := refused;
  createIssue _ _ := refused;
  updateIssue _ _ _ := refused;
  getCommentsByIssueId _ := refused;
  createComment _ _ := refused;
  getIssueStats _ _ := refused
|}.

(** Lower case for the letters [A] to [Z], as [toLowerCase] has it on
    them. *)
Fixpoint asciiLower (s : string) : string :=
  match s with
  | EmptyString => EmptyString
  | String c s' =>
      let n := Ascii.nat_of_ascii c in
      String (if ((65 <=? n) && (n <=? 90))%nat
              then Ascii.ascii_of_nat (n + 32) else c)
        (asciiLower s')
  end.

(** Blanks taken off both ends. *)
Fixpoint trimStart (s : string) : string :=
  match s with
  | EmptyString => s
  | String c s' =>
      if Ascii.eqb c (Ascii.ascii_of_nat 32) then trimStart s' else s
  end.

Definition trimBlanks (s : string) : string :=
  String.rev (trimStart (String.rev (trimStart s))).

(** * Properties *)

(** A decidable closed proposition, settled by evaluation. *)
Ltac by_evaluation := apply (bool_decide_unpack _); vm_compute; exact I.

(** Run a handler: unfold the plumbing under it. *)
Ltac run_handler :=
  unfold serve, post_issue, patch_issue, post_comment,
    try_catch, bind, call, lift, ret.

(** ** Lists *)
Lemma filter_ext_elem {A} (P Q : A → Prop)
    `{∀ x, Decision (P x)} `{∀ x, Decision (Q x)} (l : list A) :
  (∀ x, x ∈ l → P x ↔ Q x) → filter P l = filter Q l.
Proof.
  induction l as [|a l IH]; intros Hext; [done|].
  assert (Hl : filter P l = filter Q l).
  { apply IH. intros x Hx. apply Hext. by right. }
  destruct (decide (P a)) as [HP|HP].
  - rewrite !filter_cons_True, Hl; [done | | done]. apply Hext; [left | done].
  - rewrite !filter_cons_False, Hl; [done | | done].
    intros HQ. apply HP, Hext; [left | done].
Qed.

(** ** [Map] *)
Section JsMapFacts.
Context {V : Type}.
Implicit Types (m : JsMap.t V) (k : string) (v : V).

Lemma get_set_eq m k v : JsMap.get k (JsMap.set k v m) = Some v.
Proof.
  induction m as [|[k' v'] m IH]; simpl.
  - by rewrite decide_True.
  - destruct (decide (k' = k)); simpl.
    + by rewrite decide_True.
    + by rewrite decide_False.
Qed.

Lemma get_set_ne m k k' v :
  k ≠ k' → JsMap.get k' (JsMap.set k v m) = JsMap.get k' m.
Proof.
  intros Hne. induction m as [|[k0 v0] m IH]; simpl.
  - by rewrite decide_False.
  - destruct (decide (k0 = k)) as [->|]; simpl.
    + by rewrite !decide_False.
    + by rewrite IH.
Qed.

Lemma get_None_keys m k : JsMap.get k m = None ↔ k ∉ JsMap.keys m.
Proof.
  unfold JsMap.keys. induction m as [|[k' v'] m IH]; simpl.
  - split; [intros _; apply not_elem_of_nil | done].
  - rewrite not_elem_of_cons. destruct (decide (k' = k)) as [->|Hne].
    + split; [done | intros [? _]; done].
    + rewrite IH. split; [intros ?; split; [congruence | done] | intros [_ ?]; done].
Qed.

Lemma get_Some_keys m k v : JsMap.get k m = Some v → k ∈ JsMap.keys m.
Proof.
  intros Hget. destruct (decide (k ∈ JsMap.keys m)) as [|Hn]; [done|].
  apply get_None_keys in Hn. congruence.
Qed.

Lemma keys_set_old m k v :
  k ∈ JsMap.keys m → JsMap.keys (JsMap.set k v m) = JsMap.keys m.
Proof.
  unfold JsMap.keys. induction m as [|[k' v'] m IH]; simpl.
  - by intros ?%elem_of_nil.
  - intros Hin. destruct (decide (k' = k)) as [->|Hne]; simpl; [done|].
    f_equal. apply IH. apply elem_of_cons in Hin as [?|?]; [congruence|done].
Qed.

Lemma set_new m k v :
  k ∉ JsMap.keys m → JsMap.set k v m = (m ++ [(k, v)])%list.
Proof.
  unfold JsMap.keys. induction m as [|[k' v'] m IH]; simpl; [done|].
  rewrite not_elem_of_cons. intros [Hne Hnin].
  rewrite decide_False by done. by rewrite IH.
Qed.

Lemma keys_set_NoDup m k v :
  NoDup (JsMap.keys m) → NoDup (JsMap.keys (JsMap.set k v m)).
Proof.
  intros Hnd. destruct (decide (k ∈ JsMap.keys m)) as [Hin|Hnin].
  - by rewrite keys_set_old.
  - rewrite set_new by done. unfold JsMap.keys in *.
    rewrite fmap_app. simpl. apply NoDup_app. split_and!; [done| |apply NoDup_singleton].
    intros x Hx ->%list_elem_of_singleton. done.
Qed.

Lemma get_elem_values m k v : JsMap.get k m = Some v → v ∈ JsMap.values m.
Proof.
  unfold JsMap.values. induction m as [|[k' v'] m IH]; simpl; [done|].
  destruct (decide (k' = k)).
  - intros [= ->]. left.
  - intros Hget. right. by apply IH.
Qed.

Lemma elem_values_get m v :
  NoDup (JsMap.keys m) → v ∈ JsMap.values m → ∃ k, JsMap.get k m = Some v.
Proof.
  unfold JsMap.keys, JsMap.values.
  induction m as [|[k' v'] m IH]; intros Hnd Hin.
  - by apply elem_of_nil in Hin.
  - rewrite !fmap_cons in *. cbn [fst snd JsMap.get] in *.
    apply NoDup_cons in Hnd as [Hk Hnd].
    apply elem_of_cons in Hin as [->|Hin].
    + exists k'. by rewrite decide_True.
    + destruct (IH Hnd Hin) as [k Hget]. exists k.
      rewrite decide_False; [done|]. intros ->.
      apply Hk. by apply get_Some_keys in Hget.
Qed.

(** Counting the values that satisfy [P] counts the keys that hold such
    a value, as long as no key occurs twice. *)
Lemma count_values_keys_list (P : V → Prop) `{∀ x, Decision (P x)} m :
  NoDup (JsMap.keys m) →
  length (filter P (JsMap.values m))
  = length (filter (λ k, from_option P False (JsMap.get k m)) (JsMap.keys m)).
Proof.
  unfold JsMap.keys, JsMap.values.
  induction m as [|[k v] m IH]; intros Hnd; [done|].
  rewrite !fmap_cons in *. cbn [fst snd JsMap.get].
  apply NoDup_cons in Hnd as [Hk Hnd].
  assert (Hrest :
    filter (λ k0, from_option P False
                    (if decide (k = k0) then Some v else JsMap.get k0 m)) m.*1
    = filter (λ k0, from_option P False (JsMap.get k0 m)) m.*1).
  { apply filter_ext_elem. intros x Hx.
    rewrite decide_False; [done | by intros ->]. }
  destruct (decide (P v)) as [HP|HP].
  - rewrite filter_cons_True by done.
    rewrite filter_cons_True by (by rewrite decide_True).
    simpl. by rewrite Hrest, IH.
  - rewrite filter_cons_False by done.
    rewrite filter_cons_False by (by rewrite decide_True).
    by rewrite Hrest, IH.
Qed.

Lemma count_values_keys (P : V → Prop) `{∀ x, Decision (P x)} m :
  NoDup (JsMap.keys m) →
  length (filter P (JsMap.values m))
  = size (filter (λ k, from_option P False (JsMap.get k m))
            (list_to_set (JsMap.keys m) : gset string)).
Proof.
  intros Hnd. rewrite count_values_keys_list by done.
  rewrite <- (size_list_to_set (C := gset string)) by by apply NoDup_filter.
  f_equal. apply set_eq. intros k.
  rewrite elem_of_filter, !elem_of_list_to_set, list_elem_of_filter. done.
Qed.

End JsMapFacts.

(** ** Schemas *)

Lemma strip_lookup (s : Schema) (data : Obj) (k : string) :
  strip s data !! k = if decide (k ∈ s.*1) then data !! k else None.
Proof.
  induction s as [|[k' kind] s IH]; simpl.
  - by rewrite lookup_empty.
  - destruct (decide (k = k')) as [->|Hne].
    + rewrite decide_True by left.
      destruct (data !! k') as [v|] eqn:Hv.
      * by rewrite lookup_insert_eq.
      * rewrite IH. by case_decide.
    + assert (Hrest : strip s data !! k
                      = if decide (k ∈ k' :: s.*1) then data !! k else None).
      { rewrite IH. destruct (decide (k ∈ s.*1)) as [Hin|Hnin].
        - by rewrite decide_True by (by right).
        - rewrite decide_False; [done|]. by intros [?|?]%elem_of_cons. }
      destruct (data !! k'); [rewrite lookup_insert_ne by done|]; exact Hrest.
Qed.

Lemma parse_ok_inv (s : Schema) (data out : Obj) :
  parse s data = inr out →
  out = strip s data
  ∧ ∀ k kind, (k, kind) ∈ s → field_ok kind (data !! k) = true.
Proof.
  unfold parse, issuesOf. intros Hparse.
  destruct (filter _ s) as [|f bad] eqn:Hbad; simpl in Hparse; [|done].
  injection Hparse as <-. split; [done|].
  intros k kind Hin. destruct (field_ok kind (data !! k)) eqn:Hok; [done|].
  assert (Hf : (k, kind) ∈ filter (λ f, field_ok f.2 (data !! f.1) = false) s)
    by by apply list_elem_of_filter.
  rewrite Hbad in Hf. by apply elem_of_nil in Hf.
Qed.

Lemma parse_fail_inv (s : Schema) (data : Obj) (x : Exn) :
  parse s data = inl x → ∃ m, x = Error m.
Proof.
  unfold parse. destruct (issuesOf s data); intros [= <-]; eauto.
Qed.

(** The fields of a conforming object are fields of the schema, with a
    value that the schema accepts. *)
Lemma conforms_field (s : Schema) (o : Obj) (k : string) (v : JVal) :
  conforms s o → o !! k = Some v →
  ∃ kind, (k, kind) ∈ s ∧ field_ok kind (Some v) = true.
Proof.
  intros Hc Hk. apply parse_ok_inv in Hc as [Ho Hok].
  assert (Hin : k ∈ s.*1).
  { rewrite Ho, strip_lookup in Hk. by case_decide. }
  apply list_elem_of_fmap in Hin as ([k' kind] & -> & Hin). cbn [fst snd] in *.
  exists kind. split; [done|]. rewrite <- Hk. by apply Hok.
Qed.

Lemma conforms_absent (s : Schema) (o : Obj) (k : string) :
  conforms s o → k ∉ s.*1 → o !! k = None.
Proof.
  intros Hc Hk. destruct (o !! k) as [v|] eqn:Hv; [|done].
  destruct (conforms_field s o k v Hc Hv) as (kind & Hin & _).
  exfalso. apply Hk. apply list_elem_of_fmap. by exists (k, kind).
Qed.


(** ** Validation *)

Lemma filter_none {A} (P : A → Prop) `{∀ x, Decision (P x)} (l : list A) :
  (∀ x, x ∈ l → ¬ P x) → filter P l = [].
Proof.
  induction l as [|a l IH]; intros Hno; [done|].
  rewrite filter_cons_False by (apply Hno; left).
  apply IH. intros x Hx. apply Hno. by right.
Qed.

Lemma parse_ok_intro (s : Schema) (data : Obj) :
  (∀ k kind, (k, kind) ∈ s → field_ok kind (data !! k) = true) →
  parse s data = inr (strip s data).
Proof.
  intros Hok. unfold parse, issuesOf.
  assert (Hnone : filter (λ f, field_ok f.2 (data !! f.1) = false) s = []).
  { apply filter_none. intros [k kind] Hin. simpl. by rewrite (Hok k kind Hin). }
  by rewrite Hnone.
Qed.

(** What validation lets through has the type of the schema. *)
Lemma parse_conforms (s : Schema) (data out : Obj) :
  parse s data = inr out → conforms s out.
Proof.
  intros [-> Hok]%parse_ok_inv. unfold conforms.
  assert (Hkey : ∀ k kind, (k, kind) ∈ s → strip s data !! k = data !! k).
  { intros k kind Hin. rewrite strip_lookup, decide_True; [done|].
    apply list_elem_of_fmap. by exists (k, kind). }
  rewrite parse_ok_intro.
  - f_equal. apply map_eq. intros k. rewrite !strip_lookup. by case_decide.
  - intros k kind Hin. rewrite (Hkey k kind Hin). by apply Hok.
Qed.

Lemma js_or_default (v : option JVal) (d : string) :
  field_ok Optional v = true → js_or v (JStr d) = JStr (or_default v d).
Proof.
  destruct v as [[]|]; simpl; try done. intros _.
  case_decide as Hs.
  - subst. done.
  - destruct s; [done|]. done.
Qed.

(** ** The two realisations *)

Lemma DatabaseStorage_getIssueStats (cal : Calendar) (e : Env)
    (st : MemStorage.t) (db : DatabaseStorage.t) :
  same_records st db →
  DatabaseStorage.getIssueStats cal e db = MemStorage.getIssueStats cal e st.
Proof.
  intros [Hi _].
  unfold DatabaseStorage.getIssueStats, MemStorage.getIssueStats.
  by rewrite Hi.
Qed.

Lemma DatabaseStorage_getCommentsByIssueId (st : MemStorage.t)
    (db : DatabaseStorage.t) (x : string) :
  same_records st db →
  DatabaseStorage.getCommentsByIssueId db x
  = MemStorage.getCommentsByIssueId st x.
Proof.
  intros [_ Hc].
  unfold DatabaseStorage.getCommentsByIssueId, MemStorage.getCommentsByIssueId.
  by rewrite Hc.
Qed.

(** On an input of type [InsertIssue] and with an identifier that is not
    in use, [createIssue] yields the same record in both realisations and
    leaves them with the same records. *)
Lemma DatabaseStorage_createIssue (e : Env) (st : MemStorage.t)
    (db : DatabaseStorage.t) (insertIssue : Obj) :
  conforms insertIssueSchema insertIssue →
  MemStorage.getIssue st (uuid e) = None →
  same_records st db →
  (DatabaseStorage.createIssue e db insertIssue).2
  = (MemStorage.createIssue e st insertIssue).2
  ∧ same_records (MemStorage.createIssue e st insertIssue).1
      (DatabaseStorage.createIssue e db insertIssue).1.
Proof.
  intros Htyped Hfresh [Hi Hc].
  assert (Hrow : (DatabaseStorage.createIssue e db insertIssue).2
                 = (MemStorage.createIssue e st insertIssue).2).
  { unfold DatabaseStorage.createIssue, MemStorage.createIssue,
      DatabaseStorage.issueDefaults. cbn [snd].
    assert (Hno : ∀ k, k ∈ ["id"; "createdAt"; "updatedAt"] →
                       insertIssue !! k = None).
    { intros k Hk. apply (conforms_absent _ _ _ Htyped).
      repeat (apply elem_of_cons in Hk as [->|Hk]);
        [by_evaluation ..|].
      by apply elem_of_nil in Hk. }
    apply map_eq. intros k. rewrite lookup_union.
    destruct (decide (k ∈ ["id"; "createdAt"; "updatedAt"])) as [Hk|Hk].
    - rewrite !lookup_insert_ne
        by (intros <-; revert Hk; by_evaluation).
      rewrite (Hno k Hk).
      repeat (apply elem_of_cons in Hk as [->|Hk]);
        [by simplify_map_eq ..|by apply elem_of_nil in Hk].
    - rewrite !not_elem_of_cons in Hk. destruct Hk as (? & ? & ? & _).
      rewrite (lookup_insert_ne _ "updatedAt"), (lookup_insert_ne _ "createdAt"),
        (lookup_insert_ne _ "id") by done.
      destruct (decide (k = "assignedTo")) as [->|?]; [by simplify_map_eq|].
      destruct (decide (k = "priority")) as [->|?]; [by simplify_map_eq|].
      destruct (decide (k = "status")) as [->|?]; [by simplify_map_eq|].
      rewrite !lookup_insert_ne by done.
      rewrite lookup_singleton_ne by done.
      by destruct (insertIssue !! k). }
  split; [done|].
  unfold same_records.
  unfold DatabaseStorage.createIssue, MemStorage.createIssue in *.
  cbn [fst snd DatabaseStorage.issues DatabaseStorage.comments
       MemStorage.issues MemStorage.comments] in *.
  split; [|done].
  apply get_None_keys in Hfresh. rewrite set_new by done.
  unfold JsMap.values in *. rewrite fmap_app, Hi. simpl. by rewrite Hrow.
Qed.

(** ** Statistics *)

Lemma date_ge_today cal now u :
  u ≤ now → bool_decide (startOfDay cal now ≤ u) = true ↔ same_day cal u now.
Proof.
  intros Hu. rewrite bool_decide_eq_true. unfold same_day. split.
  - intros Hge. apply Z.le_antisymm.
    + by apply startOfDay_mono.
    + rewrite <- (startOfDay_idem cal now). by apply startOfDay_mono.
  - intros <-. apply startOfDay_le.
Qed.

Lemma date_ge_same_day cal now u :
  same_day cal u now → bool_decide (startOfDay cal now ≤ u) = true.
Proof.
  unfold same_day. intros <-. rewrite bool_decide_eq_true. apply startOfDay_le.
Qed.

Lemma count_as (P Q : Obj → Prop) `{∀ x, Decision (P x)} `{∀ x, Decision (Q x)}
    (st : MemStorage.t) :
  NoDup (JsMap.keys (MemStorage.issues st)) →
  (∀ id issue, MemStorage.getIssue st id = Some issue → P issue ↔ Q issue) →
  length (filter P (JsMap.values (MemStorage.issues st))) = number_of_issues st Q.
Proof.
  intros Hnd Hext. unfold number_of_issues, MemStorage.getIssue.
  rewrite <- count_values_keys by done. f_equal.
  apply filter_ext_elem. intros issue Hin.
  destruct (elem_values_get _ _ Hnd Hin) as [id Hget]. by apply (Hext id).
Qed.

(** C1.  [getIssueStats] scans the whole issue set of a store whose
    identifiers are distinct: [openIssues], [inProgress] and [urgent] are
    the numbers of issues with status [open], with status [in-progress]
    and with priority [urgent] (whatever the status), and [resolvedToday]
    is the number of issues with status [resolved] whose [updatedAt] falls
    on the local calendar day of the call, provided that no issue carries a
    time stamp later than the time of the call.  In particular, on five
    issues A (open), B (in-progress), C (resolved, updated today), D
    (resolved, updated before today's midnight) and E (open and urgent),
    the others not urgent, the result is 2, 1, 1, 1.  The durable
    realisation returns the same statistics on the same records. *)
Theorem getIssueStats_counts (cal : Calendar) (e : Env) (st : MemStorage.t) :
  NoDup (JsMap.keys (MemStorage.issues st)) →
  (∀ id issue, MemStorage.getIssue st id = Some issue →
     ∃ u, stamp "updatedAt" issue u ∧ u ≤ now e) →
  let stats := MemStorage.getIssueStats cal e st in
  openIssues stats = number_of_issues st (has_status "open")
  ∧ inProgress stats = number_of_issues st (has_status "in-progress")
  ∧ resolvedToday stats
    = number_of_issues st
        (λ issue, has_status "resolved" issue ∧ updated_on_day cal (now e) issue)
  ∧ urgent stats = number_of_issues st (has_priority "urgent")
  ∧ (∀ A B C D E c d,
      JsMap.values (MemStorage.issues st) ≡ₚ [A; B; C; D; E] →
      has_status "open" A → ¬ has_priority "urgent" A →
      has_status "in-progress" B → ¬ has_priority "urgent" B →
      has_status "resolved" C → ¬ has_priority "urgent" C →
      stamp "updatedAt" C c → same_day cal c (now e) →
      has_status "resolved" D → ¬ has_priority "urgent" D →
      stamp "updatedAt" D d → d < startOfDay cal (now e) →
      has_status "open" E → has_priority "urgent" E →
      stats = mkStats 2 1 1 1)
  ∧ ∀ db, same_records st db →
          DatabaseStorage.getIssueStats cal e db = stats.
Proof.
  intros Hnd Hstamp stats. subst stats.
  split_and!; [..|intros db Hdb; by apply DatabaseStorage_getIssueStats];
    unfold MemStorage.getIssueStats, countStats;
    cbn [openIssues inProgress resolvedToday urgent].
  - by apply count_as.
  - by apply count_as.
  - apply count_as; [done|]. intros id issue Hget.
    destruct (Hstamp id issue Hget) as (u & Hu & Hle).
    unfold updated_on_day, date_ge, stamp in *. rewrite Hu. simpl.
    by rewrite date_ge_today.
  - by apply count_as.
  - intros A B C D E c d Hperm HA HA' HB HB' HC HC' Hc Hcday HD HD' Hd Hdday HE HE'.
    unfold has_status, has_priority, stamp in *.
    assert (HCd : date_ge (C !! "updatedAt") (startOfDay cal (now e)) = true).
    { rewrite Hc. unfold date_ge. simpl. by apply date_ge_same_day. }
    assert (HDd : date_ge (D !! "updatedAt") (startOfDay cal (now e)) ≠ true).
    { rewrite Hd. unfold date_ge. simpl. rewrite bool_decide_eq_true. lia. }
    rewrite !Hperm, !filter_cons, !filter_nil.
    repeat match goal with
    | |- context [decide ?P] =>
        first [ rewrite (decide_True (P := P)) by (done || (split; done))
              | rewrite (decide_False (P := P))
                  by (congruence || (intros [? ?]; congruence)) ]
    end.
    reflexivity.
Qed.

(** The statistics of the five sample issues, late on 14 November 2023. *)
Lemma getIssueStats_counts_witness :
  MemStorage.getIssueStats utc (mkEnv "" sampleNow) fiveIssues = mkStats 2 1 1 1.
Proof.
  assert (Hnd : NoDup (JsMap.keys (MemStorage.issues fiveIssues))).
  { by_evaluation. }
  assert (Hstamp : ∀ id issue,
             MemStorage.getIssue fiveIssues id = Some issue →
             ∃ u, stamp "updatedAt" issue u ∧ u ≤ now (mkEnv "" sampleNow)).
  { intros id issue Hget. apply get_elem_values in Hget.
    unfold stamp. simpl in Hget.
    repeat (apply elem_of_cons in Hget as [->|Hget]);
      [eexists; split; [vm_compute; reflexivity | vm_compute; discriminate] ..|].
    by apply elem_of_nil in Hget. }
  destruct (getIssueStats_counts utc (mkEnv "" sampleNow) fiveIssues Hnd Hstamp)
    as (_ & _ & _ & _ & Hfive & _).
  apply (Hfive issueA issueB issueC issueD issueE 1699990000000 1699900000000);
    try reflexivity; try (vm_compute; reflexivity); try (vm_compute; congruence).
Defined.

(** ** Issues in [MemStorage] *)

(** C3.  [createIssue] gives the record status [open], priority [medium]
    and a [null] assignee where the input omits them, the identifier drawn
    from [randomUUID()], and the time of the call as [createdAt] and as
    [updatedAt]; every other field is the input's; the record returned is
    the record stored under that identifier; and when the identifier is
    fresh, the store keeps every earlier issue and gains exactly this
    one.  On an input of type [InsertIssue] the durable realisation then
    yields the same record and keeps the same records. *)
Theorem createIssue_defaults (e : Env) (st : MemStorage.t) (insertIssue : Obj) :
  let st' := (MemStorage.createIssue e st insertIssue).1 in
  let issue := (MemStorage.createIssue e st insertIssue).2 in
  (insertIssue !! "status" = None → has_status "open" issue)
  ∧ (insertIssue !! "priority" = None → has_priority "medium" issue)
  ∧ (insertIssue !! "assignedTo" = None → issue !! "assignedTo" = Some JNull)
  ∧ issue !! "id" = Some (JStr (uuid e))
  ∧ stamp "createdAt" issue (now e)
  ∧ stamp "updatedAt" issue (now e)
  ∧ (∀ k, k ∉ createdFields → issue !! k = insertIssue !! k)
  ∧ MemStorage.getIssue st' (uuid e) = Some issue
  ∧ MemStorage.comments st' = MemStorage.comments st
  ∧ (MemStorage.getIssue st (uuid e) = None →
       (∀ id, id ≠ uuid e → MemStorage.getIssue st' id = MemStorage.getIssue st id)
       ∧ JsMap.values (MemStorage.issues st')
         = (JsMap.values (MemStorage.issues st) ++ [issue])%list
       ∧ ∀ db, conforms insertIssueSchema insertIssue → same_records st db →
               (DatabaseStorage.createIssue e db insertIssue).2 = issue
               ∧ same_records st' (DatabaseStorage.createIssue e db insertIssue).1).
Proof.
  intros st' issue. subst st' issue.
  assert (Hdb : MemStorage.getIssue st (uuid e) = None →
                ∀ db, conforms insertIssueSchema insertIssue → same_records st db →
                  (DatabaseStorage.createIssue e db insertIssue).2
                  = (MemStorage.createIssue e st insertIssue).2
                  ∧ same_records (MemStorage.createIssue e st insertIssue).1
                      (DatabaseStorage.createIssue e db insertIssue).1).
  { intros Hfresh db Htyped Hsame. by apply DatabaseStorage_createIssue. }
  revert Hdb.
  unfold MemStorage.createIssue, MemStorage.getIssue, has_status, has_priority,
    stamp, createdFields. cbn [fst snd MemStorage.issues MemStorage.comments].
  intros Hdb. split_and!.
  - intros ->. by simplify_map_eq.
  - intros ->. by simplify_map_eq.
  - intros ->. by simplify_map_eq.
  - by simplify_map_eq.
  - by simplify_map_eq.
  - by simplify_map_eq.
  - intros k Hk. rewrite !not_elem_of_cons in Hk.
    destruct Hk as (? & ? & ? & ? & ? & ? & _).
    by rewrite !lookup_insert_ne by done.
  - apply get_set_eq.
  - done.
  - intros Hfresh. split_and!.
    + intros id Hid. by apply get_set_ne.
    + apply get_None_keys in Hfresh. rewrite set_new by done.
      unfold JsMap.values. by rewrite fmap_app.
    + by apply Hdb.
Qed.

(** A submission that leaves the optional fields out, on the empty store. *)
Lemma createIssue_defaults_witness :
  let r := MemStorage.createIssue (mkEnv "id-1" sampleNow) MemStorage.new
             sampleInsertIssue in
  has_status "open" r.2 ∧ has_priority "medium" r.2
  ∧ r.2 !! "assignedTo" = Some JNull
  ∧ MemStorage.getIssue r.1 "id-1" = Some r.2
  ∧ JsMap.values (MemStorage.issues r.1) = [r.2].
Proof.
  destruct (createIssue_defaults (mkEnv "id-1" sampleNow) MemStorage.new
              sampleInsertIssue)
    as (Hs & Hp & Ha & _ & _ & _ & _ & Hget & _ & Hfresh).
  split_and!.
  - apply Hs. vm_compute. reflexivity.
  - apply Hp. vm_compute. reflexivity.
  - apply Ha. vm_compute. reflexivity.
  - exact Hget.
  - apply Hfresh. reflexivity.
Defined.

Lemma spread_lookup_new (issue updates : Obj) (k : string) (v : JVal) :
  updates !! k = Some v → spread issue updates !! k = Some v.
Proof. intros Hk. unfold spread. by apply lookup_union_Some_l. Qed.

Lemma spread_lookup_old (issue updates : Obj) (k : string) :
  updates !! k = None → spread issue updates !! k = issue !! k.
Proof. intros Hk. unfold spread. by apply lookup_union_r. Qed.



(** C5.  [updateIssue] on an identifier that the store does not hold
    returns [undefined] and leaves the store as it is, whatever the
    updates; [PATCH /api/issues/:id] then answers 404 and the store is
    unchanged after its single data-access call. *)
Theorem updateIssue_unknown (e : Env) (st : MemStorage.t) (id : string)
    (updates : Obj) :
  MemStorage.getIssue st id = None →
  MemStorage.updateIssue e st id updates = (st, None)
  ∧ serve (patch_issue e id updates) st
    = (inr (mkResponse 404 (message "Issue not found")),
       mkServer st [CallUpdateIssue id updates]).
Proof.
  intros Hget.
  assert (Hupd : MemStorage.updateIssue e st id updates = (st, None)).
  { unfold MemStorage.updateIssue, MemStorage.getIssue in *. by rewrite Hget. }
  split; [done|].
  run_handler. simpl.
  by rewrite Hupd.
Qed.

(** An update of an issue that the five sample issues do not include. *)
Lemma updateIssue_unknown_witness :
  serve (patch_issue (mkEnv "" sampleNow) "zz" {[ "status" := JStr "resolved" ]})
    fiveIssues
  = (inr (mkResponse 404 (message "Issue not found")),
     mkServer fiveIssues [CallUpdateIssue "zz" {[ "status" := JStr "resolved" ]}]).
Proof.
  apply (updateIssue_unknown (mkEnv "" sampleNow) fiveIssues "zz"
           {[ "status" := JStr "resolved" ]}).
  reflexivity.
Defined.

(** ** Sorting *)
Section Sort.
Context {A : Type} (cmp : A → A → Z).

Lemma sort_insert_perm (x : A) (l : list A) : sort_insert cmp x l ≡ₚ x :: l.
Proof.
  induction l as [|y l IH]; simpl; [done|].
  case_decide; [done|]. rewrite IH. apply Permutation_swap.
Qed.

Lemma js_sort_perm (l : list A) : js_sort cmp l ≡ₚ l.
Proof.
  unfold js_sort. induction l as [|x l IH]; simpl; [done|].
  by rewrite sort_insert_perm, IH.
Qed.

(** Inserting into a sorted list keeps it sorted, for an order [R] that
    the comparator decides on the elements at hand. *)
Lemma sort_insert_sorted (R : relation A) (x : A) (l : list A) :
  (∀ y, y ∈ l → cmp x y ≤ 0 → R x y) →
  (∀ y, y ∈ l → ¬ cmp x y ≤ 0 → R y x) →
  Sorted R l → Sorted R (sort_insert cmp x l).
Proof.
  induction l as [|y l IH]; simpl; intros Hle Hgt Hs.
  - by repeat constructor.
  - apply Sorted_inv in Hs as [Hs Hhd]. case_decide as Hc.
    + repeat constructor; [done..|]. apply Hle; [left | done].
    + constructor.
      * apply IH; [| |done]; intros z Hz; [apply Hle | apply Hgt]; by right.
      * destruct l as [|z l]; simpl.
        { constructor. apply Hgt; [left | done]. }
        apply HdRel_inv in Hhd.
        case_decide; constructor; [|done]. apply Hgt; [left | done].
Qed.

Lemma js_sort_sorted (R : relation A) (l : list A) :
  (∀ x y, x ∈ l → y ∈ l → cmp x y ≤ 0 → R x y) →
  (∀ x y, x ∈ l → y ∈ l → ¬ cmp x y ≤ 0 → R y x) →
  Sorted R (js_sort cmp l).
Proof.
  unfold js_sort. induction l as [|x l IH]; simpl; intros Hle Hgt.
  - constructor.
  - assert (Hin : ∀ y, y ∈ foldr (sort_insert cmp) [] l → y ∈ l).
    { intros y Hy. by rewrite (js_sort_perm l) in Hy. }
    apply sort_insert_sorted.
    + intros y Hy. apply Hle; [left | right; by apply Hin].
    + intros y Hy. apply Hgt; [left | right; by apply Hin].
    + apply IH; intros y z Hy Hz; [apply Hle | apply Hgt]; by right.
Qed.

End Sort.

#[global] Instance created_le_trans : Transitive created_le.
Proof.
  intros a b c (x & y & Hx & Hy & Hxy) (y' & z & Hy' & Hz & Hyz).
  unfold stamp in *. exists x, z. split_and!; [done..|].
  assert (y = y') by congruence. lia.
Qed.

(** ** Comments *)

(** C8.  [getCommentsByIssueId x] returns the comments of the store whose
    [issueId] is [x], each as often as the store holds it and no other,
    and, the comments carrying their creation date, in ascending order of
    [createdAt].  The durable realisation returns the same list on the
    same records. *)
Theorem getCommentsByIssueId_sorted (st : MemStorage.t) (x : string) :
  let result := MemStorage.getCommentsByIssueId st x in
  result ≡ₚ filter (of_issue x) (JsMap.values (MemStorage.comments st))
  ∧ (∀ c, c ∈ result ↔ c ∈ JsMap.values (MemStorage.comments st) ∧ of_issue x c)
  ∧ ((∀ c, c ∈ JsMap.values (MemStorage.comments st) →
           ∃ t, stamp "createdAt" c t) →
     StronglySorted created_le result)
  ∧ ∀ db, same_records st db →
          DatabaseStorage.getCommentsByIssueId db x = result.
Proof.
  intros result. subst result.
  split_and!;
    [..|intros db Hdb; by apply DatabaseStorage_getCommentsByIssueId];
    unfold MemStorage.getCommentsByIssueId;
    rewrite (list_filter_iff _ (of_issue x)) by done.
  - apply js_sort_perm.
  - intros c. rewrite js_sort_perm, list_elem_of_filter. tauto.
  - intros Hdates. apply Sorted_StronglySorted; [apply _|].
    assert (Hd : ∀ c, c ∈ filter (of_issue x) (JsMap.values (MemStorage.comments st)) →
                      ∃ t, stamp "createdAt" c t).
    { intros c [_ Hc]%list_elem_of_filter. by apply Hdates. }
    apply js_sort_sorted; intros a b Ha Hb Hcmp;
      destruct (Hd a Ha) as [ta Hta]; destruct (Hd b Hb) as [tb Htb];
      unfold byCreatedAtAsc, created_le, stamp in *;
      rewrite Hta, Htb in Hcmp; simpl in Hcmp.
    + exists ta, tb. split_and!; [done..|lia].
    + exists tb, ta. split_and!; [done..|lia].
Qed.

(** The thread of issue [a], stored out of order, is read in order. *)
Lemma getCommentsByIssueId_sorted_witness :
  MemStorage.getCommentsByIssueId sampleThread "a" = [commentC3; commentC1]
  ∧ StronglySorted created_le (MemStorage.getCommentsByIssueId sampleThread "a").
Proof.
  split; [vm_compute; reflexivity|].
  destruct (getCommentsByIssueId_sorted sampleThread "a")
    as (_ & _ & Hsorted & _).
  apply Hsorted. intros c Hc. unfold stamp.
  change (c ∈ [commentC1; commentC2; commentC3]) in Hc.
  apply elem_of_cons in Hc as [->|Hc];
    [exists 1699800000300; vm_compute; reflexivity|].
  apply elem_of_cons in Hc as [->|Hc];
    [exists 1699800000100; vm_compute; reflexivity|].
  apply elem_of_cons in Hc as [->|Hc];
    [exists 1699800000200; vm_compute; reflexivity|].
  by apply elem_of_nil in Hc.
Defined.

(** ** Creation and update dates *)

Lemma run_snoc (ops : list Op) (op : Op) (st : MemStorage.t) :
  run (ops ++ [op]) st = step (run ops st) op.
Proof. unfold run. by rewrite fold_left_app. Qed.

Lemma sorted_snoc_le (ts : list Z) (t : Z) :
  Sorted Z.le (ts ++ [t]) → Sorted Z.le ts ∧ ∀ u, u ∈ ts → u ≤ t.
Proof.
  intros Hs. apply (Sorted_StronglySorted _) in Hs.
  apply StronglySorted_app in Hs as (Hle & Hts & _). split.
  - by apply StronglySorted_Sorted.
  - intros u Hu. apply Hle; [done | left].
Qed.

Lemma stamped_within_mono (ts ts' : list Z) (issue : Obj) :
  ts ⊆ ts' → stamped_within ts issue → stamped_within ts' issue.
Proof. intros Hsub (c & u & ? & ? & ? & ?). exists c, u. eauto. Qed.

(** A call at its TypeScript type leaves the creation date alone. *)
Lemma op_typed_keeps_createdAt (op : Op) : op_typed op → op_keeps_createdAt op.
Proof.
  destruct op as [e insertIssue|e id updates|e insertComment]; simpl; [done| |done].
  intros Hupd. apply (conforms_absent _ _ _ Hupd). by_evaluation.
Qed.

(** The issues of a store reached from the empty one, under a clock that
    never goes back, by operations none of which supplies a creation
    date. *)
Lemma run_stamped (ops : list Op) :
  Forall op_keeps_createdAt ops →
  Sorted Z.le (op_time <$> ops) →
  ∀ id issue, MemStorage.getIssue (run ops MemStorage.new) id = Some issue →
    stamped_within (op_time <$> ops) issue.
Proof.
  induction ops as [|op ops IH] using rev_ind; intros Htyped Hclock id issue.
  - done.
  - rewrite fmap_app in *. simpl in Hclock.
    apply Forall_app in Htyped as [Htyped Hop]. rewrite Forall_singleton in Hop.
    apply sorted_snoc_le in Hclock as [Hclock Hlast].
    specialize (IH Htyped Hclock). rewrite run_snoc.
    set (st := run ops MemStorage.new) in *.
    assert (Hkeep : ∀ i, stamped_within (op_time <$> ops) i →
                         stamped_within ((op_time <$> ops) ++ [op_time op]) i).
    { intros i. apply stamped_within_mono. intros t Ht.
      apply elem_of_app. by left. }
    unfold MemStorage.getIssue in *.
    destruct op as [e insertIssue|e id' updates|e insertComment]; simpl in *.
    + destruct (decide (uuid e = id)) as [<-|Hne].
      * rewrite get_set_eq. intros [= <-]. exists (now e), (now e).
        unfold stamp. rewrite lookup_insert_eq.
        rewrite lookup_insert_ne, lookup_insert_eq by done.
        split_and!; [done..|lia|]. apply elem_of_app. right. left.
      * rewrite get_set_ne by done. intros Hget. eauto.
    + unfold MemStorage.updateIssue.
      destruct (JsMap.get id' (MemStorage.issues st)) as [old|] eqn:Hold;
        simpl; [|by eauto].
      destruct (decide (id' = id)) as [->|Hne].
      * rewrite get_set_eq. intros [= <-].
        destruct (IH _ _ Hold) as (c & u & Hc & Hu & Hcu & Hin).
        exists c, (now e). unfold stamp in *. rewrite lookup_insert_eq.
        rewrite lookup_insert_ne by done.
        rewrite spread_lookup_old by exact Hop.
        split_and!; [done..| |].
        -- specialize (Hlast u Hin). lia.
        -- apply elem_of_app. right. left.
      * rewrite get_set_ne by done. intros Hget. eauto.
    + intros Hget. eauto.
Qed.

(** ** Reachable stores *)

Lemma elem_values_set {V} (m : JsMap.t V) (k : string) (v x : V) :
  NoDup (JsMap.keys m) →
  x ∈ JsMap.values (JsMap.set k v m) → x = v ∨ x ∈ JsMap.values m.
Proof.
  intros Hnd Hx.
  apply elem_values_get in Hx as [k' Hget]; [|by apply keys_set_NoDup].
  destruct (decide (k = k')) as [<-|Hne].
  - rewrite get_set_eq in Hget. left. congruence.
  - rewrite get_set_ne in Hget by done. right. by eapply get_elem_values.
Qed.

Lemma step_well_formed (ts : list Z) (st : MemStorage.t) (op : Op) :
  well_formed ts st → well_formed (ts ++ [op_time op]) (step st op).
Proof.
  intros (Hi & Hc & Hu & Ht).
  assert (Hold : ∀ t, t ∈ ts → t ∈ (ts ++ [op_time op])%list)
    by (intros t ?; apply elem_of_app; by left).
  assert (Hnew : op_time op ∈ (ts ++ [op_time op])%list)
    by (apply elem_of_app; right; left).
  unfold well_formed.
  destruct op as [e insertIssue|e id updates|e insertComment];
    cbn [step op_time] in *;
    unfold MemStorage.createIssue, MemStorage.createComment;
    cbn [fst MemStorage.issues MemStorage.comments].
  - split_and!; [by apply keys_set_NoDup|done| |].
    + intros issue Hin. apply elem_values_set in Hin as [->|Hin]; [| |done].
      * exists (now e). unfold stamp. by rewrite lookup_insert_eq.
      * destruct (Hu _ Hin) as (u & ? & ?). eauto.
    + intros c Hin. destruct (Ht _ Hin) as (t & ? & ?). eauto.
  - unfold MemStorage.updateIssue.
    destruct (JsMap.get id (MemStorage.issues st)) as [old|];
      cbn [fst MemStorage.issues MemStorage.comments].
    + split_and!; [by apply keys_set_NoDup|done| |].
      * intros issue Hin. apply elem_values_set in Hin as [->|Hin]; [| |done].
        -- exists (now e). unfold stamp. by rewrite lookup_insert_eq.
        -- destruct (Hu _ Hin) as (u & ? & ?). eauto.
      * intros c Hin. destruct (Ht _ Hin) as (t & ? & ?). eauto.
    + split_and!; [done..| |].
      * intros issue Hin. destruct (Hu _ Hin) as (u & ? & ?). eauto.
      * intros c Hin. destruct (Ht _ Hin) as (t & ? & ?). eauto.
  - split_and!; [done|by apply keys_set_NoDup| |].
    + intros issue Hin. destruct (Hu _ Hin) as (u & ? & ?). eauto.
    + intros c Hin. apply elem_values_set in Hin as [->|Hin]; [| |done].
      * exists (now e). unfold stamp. by rewrite lookup_insert_eq.
      * destruct (Ht _ Hin) as (t & ? & ?). eauto.
Qed.

(** Every store that the operations reach from the empty one is well
    formed, whatever the arguments of the operations. *)
Lemma run_well_formed (ops : list Op) :
  well_formed (op_time <$> ops) (run ops MemStorage.new).
Proof.
  induction ops as [|op ops IH] using rev_ind.
  - unfold well_formed. simpl. split_and!; try apply NoDup_nil_2;
      intros ? Hin; by apply elem_of_nil in Hin.
  - rewrite run_snoc, fmap_app. by apply step_well_formed.
Qed.

(** At a time [T] that is not before any of the calls so far, the store
    meets what the statistics and the comment threads are stated under:
    the identifiers are distinct, no issue was updated after [T], and
    every comment carries its creation date. *)
Lemma run_dated (ops : list Op) (T : Z) :
  Forall (λ op, op_time op ≤ T) ops →
  let st := run ops MemStorage.new in
  NoDup (JsMap.keys (MemStorage.issues st))
  ∧ (∀ id issue, MemStorage.getIssue st id = Some issue →
       ∃ u, stamp "updatedAt" issue u ∧ u ≤ T)
  ∧ (∀ c, c ∈ JsMap.values (MemStorage.comments st) →
       ∃ t, stamp "createdAt" c t).
Proof.
  intros Hpast st. destruct (run_well_formed ops) as (Hi & _ & Hu & Hc).
  fold st in Hi, Hu, Hc. split_and!.
  - done.
  - intros id issue Hget. apply get_elem_values in Hget.
    destruct (Hu issue Hget) as (u & Hstamp & Hin). exists u. split; [done|].
    apply list_elem_of_fmap in Hin as (op & -> & Hop).
    by apply (proj1 (Forall_forall _ _) Hpast).
  - intros c Hin. destruct (Hc c Hin) as (t & ? & _). eauto.
Qed.

(** ** Dates across a history *)

(** C9.  After any sequence of [createIssue], [updateIssue] and
    [createComment] calls on the empty store, under a clock that never
    goes back, every issue of the store carries the date of its last
    update, and a further update of it, whatever it supplies, stores and
    returns the record with [updatedAt] set to the time of the call, which
    is not before the old [updatedAt]; the creation date is kept when the
    update supplies none.  When no update of the sequence supplies a
    creation date, every issue of the store has [createdAt ≤ updatedAt],
    and so it has again after a further update that supplies none. *)
Theorem updatedAt_ge_createdAt (ops : list Op) (id : string) (issue : Obj) :
  Sorted Z.le (op_time <$> ops) →
  MemStorage.getIssue (run ops MemStorage.new) id = Some issue →
  (∃ u,
     stamp "updatedAt" issue u
     ∧ ∀ e updates,
         Sorted Z.le (op_time <$> (ops ++ [OpUpdateIssue e id updates])%list) →
         ∃ issue',
           MemStorage.updateIssue e (run ops MemStorage.new) id updates
           = (run (ops ++ [OpUpdateIssue e id updates])%list MemStorage.new,
              Some issue')
           ∧ MemStorage.getIssue
               (run (ops ++ [OpUpdateIssue e id updates])%list MemStorage.new) id
             = Some issue'
           ∧ stamp "updatedAt" issue' (now e)
           ∧ u ≤ now e
           ∧ (updates !! "createdAt" = None →
              issue' !! "createdAt" = issue !! "createdAt"))
  ∧ (Forall op_keeps_createdAt ops →
     ∃ c u,
       stamp "createdAt" issue c ∧ stamp "updatedAt" issue u ∧ c ≤ u
       ∧ ∀ e updates,
           updates !! "createdAt" = None →
           Sorted Z.le (op_time <$> (ops ++ [OpUpdateIssue e id updates])%list) →
           ∃ issue',
             MemStorage.getIssue
               (run (ops ++ [OpUpdateIssue e id updates])%list MemStorage.new) id
             = Some issue'
             ∧ stamp "createdAt" issue' c
             ∧ stamp "updatedAt" issue' (now e)
             ∧ c ≤ now e).
Proof.
  intros Hclock Hget.
  assert (Hupdate : ∀ e updates,
    MemStorage.updateIssue e (run ops MemStorage.new) id updates
    = (run (ops ++ [OpUpdateIssue e id updates])%list MemStorage.new,
       Some (<["updatedAt" := JDate (now e)]> (spread issue updates)))
    ∧ MemStorage.getIssue
        (run (ops ++ [OpUpdateIssue e id updates])%list MemStorage.new) id
      = Some (<["updatedAt" := JDate (now e)]> (spread issue updates))).
  { intros e updates. rewrite run_snoc. cbn [step].
    unfold MemStorage.updateIssue, MemStorage.getIssue in *.
    rewrite Hget. cbn [fst MemStorage.issues]. split; [done|].
    apply get_set_eq. }
  assert (Hlater : ∀ e updates t,
    Sorted Z.le (op_time <$> (ops ++ [OpUpdateIssue e id updates])%list) →
    t ∈ op_time <$> ops → t ≤ now e).
  { intros e updates t Hclock' Hin. rewrite fmap_app in Hclock'.
    apply sorted_snoc_le in Hclock' as [_ Hlast]. by apply Hlast. }
  split.
  - destruct (run_well_formed ops) as (_ & _ & Hdated & _).
    destruct (Hdated issue) as (u & Hu & Hin);
      [by apply (get_elem_values _ id)|].
    exists u. split; [done|].
    intros e updates Hclock'.
    destruct (Hupdate e updates) as [Hcall Hstored].
    eexists. split_and!; [exact Hcall|exact Hstored| | |].
    + unfold stamp. by rewrite lookup_insert_eq.
    + by apply (Hlater e updates).
    + intros Hnone. rewrite lookup_insert_ne by done.
      by apply spread_lookup_old.
  - intros Hkeep.
    destruct (run_stamped ops Hkeep Hclock id issue Hget)
      as (c & u & Hc & Hu & Hcu & Hin).
    exists c, u. split_and!; [done..|].
    intros e updates Hnone Hclock'.
    destruct (Hupdate e updates) as [_ Hstored].
    eexists. split_and!; [exact Hstored| | |].
    + unfold stamp in *. rewrite lookup_insert_ne by done.
      by rewrite spread_lookup_old.
    + unfold stamp. by rewrite lookup_insert_eq.
    + specialize (Hlater e updates u Hclock' Hin). lia.
Qed.

(** The claim C9 as written fails: an update may supply a creation date.
    Under a clock that never goes back, an issue is created and then
    updated with a later [createdAt], and the stored record has its
    [updatedAt] before its [createdAt].  The same happens through
    [PATCH /api/issues/:id], which hands the body to [updateIssue] as it
    comes: the creation date of the stored issue is then the string of
    the body. *)
Lemma createdAt_not_protected :
  Sorted Z.le (op_time <$> postdatedHistory)
  ∧ MemStorage.getIssue (run postdatedHistory MemStorage.new) "id-1"
    = Some postdatedIssue
  ∧ stamp "createdAt" postdatedIssue (sampleNow + 20000)
  ∧ stamp "updatedAt" postdatedIssue (sampleNow + 10000)
  ∧ sampleNow + 10000 < sampleNow + 20000
  ∧ serve (patch_issue (mkEnv "" (sampleNow + 10000)) "id-1" redatingPatch)
      (run [OpCreateIssue (mkEnv "id-1" sampleNow) sampleInsertIssue]
         MemStorage.new)
    = (inr (mkResponse 200 redatedIssue),
       mkServer (MemStorage.mk [("id-1", redatedIssue)] [])
         [CallUpdateIssue "id-1" redatingPatch])
  ∧ (∀ c, ¬ stamp "createdAt" redatedIssue c).
Proof.
  split_and!.
  - by_evaluation.
  - by_evaluation.
  - by_evaluation.
  - by_evaluation.
  - by_evaluation.
  - vm_compute. reflexivity.
  - intros c. vm_compute. discriminate.
Qed.

(** The issue of the sample history, created and then resolved, and a
    further change of its priority a minute later. *)
Lemma updatedAt_ge_createdAt_witness :
  ∃ issue c u,
    MemStorage.getIssue (run sampleHistory MemStorage.new) "id-1" = Some issue
    ∧ stamp "createdAt" issue c ∧ stamp "updatedAt" issue u ∧ c ≤ u
    ∧ ∃ issue',
        MemStorage.getIssue
          (run (sampleHistory
                ++ [OpUpdateIssue (mkEnv "" (sampleNow + 60000)) "id-1"
                      {[ "priority" := JStr "high" ]}])%list MemStorage.new)
          "id-1"
        = Some issue'
        ∧ stamp "updatedAt" issue' (sampleNow + 60000).
Proof.
  assert (Hget : is_Some (MemStorage.getIssue (run sampleHistory MemStorage.new)
                            "id-1")).
  { by_evaluation. }
  destruct Hget as [issue Hget].
  assert (Hclock : Sorted Z.le (op_time <$> sampleHistory)) by by_evaluation.
  destruct (updatedAt_ge_createdAt sampleHistory "id-1" issue Hclock Hget)
    as [(u' & _ & Hrefresh) Hdates].
  destruct Hdates as (c & u & Hc & Hu & Hcu & _); [by_evaluation|].
  destruct (Hrefresh (mkEnv "" (sampleNow + 60000))
              {[ "priority" := JStr "high" ]})
    as (issue' & _ & Hstored & Hu' & _); [by_evaluation|].
  exists issue, c, u. split_and!; [done..|].
  by exists issue'.
Defined.

(** ** [POST /api/issues] *)

Lemma createIssue_status (e : Env) (st : MemStorage.t) (insertIssue : Obj) :
  (MemStorage.createIssue e st insertIssue).2 !! "status"
  = Some (js_or (insertIssue !! "status") (JStr "open")).
Proof.
  unfold MemStorage.createIssue. cbn [snd].
  by rewrite !lookup_insert_ne, lookup_insert_eq by done.
Qed.

Lemma createIssue_priority (e : Env) (st : MemStorage.t) (insertIssue : Obj) :
  (MemStorage.createIssue e st insertIssue).2 !! "priority"
  = Some (js_or (insertIssue !! "priority") (JStr "medium")).
Proof.
  unfold MemStorage.createIssue. cbn [snd].
  by rewrite !lookup_insert_ne, lookup_insert_eq by done.
Qed.

Lemma post_issue_valid (e : Env) (st : MemStorage.t) (body validated : Obj) :
  parse insertIssueSchema body = inr validated →
  serve (post_issue e body) st
  = (inr (mkResponse 201 (MemStorage.createIssue e st validated).2),
     mkServer (MemStorage.createIssue e st validated).1
       [CallCreateIssue validated]).
Proof.
  intros Hparse.
  run_handler.
  by rewrite Hparse.
Qed.

Lemma post_issue_invalid (e : Env) (st : MemStorage.t) (body : Obj) (x : Exn) :
  parse insertIssueSchema body = inl x →
  ∃ m, serve (post_issue e body) st
       = (inr (mkResponse 400 (message m)), mkServer st []).
Proof.
  intros Hparse. destruct (parse_fail_inv _ _ _ Hparse) as [m ->].
  exists m. run_handler.
  by rewrite Hparse.
Qed.

(** C2, as the code has it.  A submission that passes validation is
    answered 201 with the record that [createIssue] stored under the fresh
    identifier; its status is the submitted status when that is a
    non-empty string and [open] when the status is left out or empty, and
    its priority is defaulted to [medium] in the same way. *)
Theorem post_issue_status_default (e : Env) (st : MemStorage.t)
    (body validated : Obj) :
  parse insertIssueSchema body = inr validated →
  ∃ issue st',
    serve (post_issue e body) st
    = (inr (mkResponse 201 issue), mkServer st' [CallCreateIssue validated])
    ∧ MemStorage.getIssue st' (uuid e) = Some issue
    ∧ has_status (or_default (body !! "status") "open") issue
    ∧ has_priority (or_default (body !! "priority") "medium") issue
    ∧ (body !! "status" = None → has_status "open" issue)
    ∧ (∀ s, body !! "status" = Some (JStr s) → s ≠ "" → has_status s issue).
Proof.
  intros Hparse. eexists _, _. split; [by apply post_issue_valid|].
  destruct (parse_ok_inv _ _ _ Hparse) as [-> Hok].
  assert (Hst : field_ok Optional (body !! "status") = true).
  { apply Hok. by_evaluation. }
  assert (Hpr : field_ok Optional (body !! "priority") = true).
  { apply Hok. by_evaluation. }
  assert (Hs : has_status (or_default (body !! "status") "open")
                 (MemStorage.createIssue e st (strip insertIssueSchema body)).2).
  { unfold has_status. rewrite createIssue_status, strip_lookup, decide_True
      by by_evaluation.
    by rewrite js_or_default. }
  split_and!.
  - apply get_set_eq.
  - exact Hs.
  - unfold has_priority. rewrite createIssue_priority, strip_lookup, decide_True
      by by_evaluation.
    by rewrite js_or_default.
  - intros Hnone. by rewrite Hnone in Hs.
  - intros s Hsome Hne. rewrite Hsome in Hs. simpl in Hs.
    by rewrite decide_False in Hs.
Qed.

(** The claim C2 as written fails: a submission that carries the status
    [resolved] is stored and returned with the status [resolved]. *)
Lemma post_issue_status_not_forced :
  serve (post_issue (mkEnv "id-1" sampleNow) resolvedSubmission) MemStorage.new
  = (inr (mkResponse 201 resolvedIssue),
     mkServer (MemStorage.mk [("id-1", resolvedIssue)] [])
       [CallCreateIssue resolvedSubmission])
  ∧ has_status "resolved" resolvedIssue
  ∧ ¬ has_status "open" resolvedIssue.
Proof.
  split_and!.
  - vm_compute. reflexivity.
  - vm_compute. reflexivity.
  - vm_compute. discriminate.
Qed.

(** The submitted status of a valid submission is kept. *)
Lemma post_issue_status_default_witness :
  ∃ issue st',
    serve (post_issue (mkEnv "id-1" sampleNow) resolvedSubmission) MemStorage.new
    = (inr (mkResponse 201 issue),
       mkServer st' [CallCreateIssue resolvedSubmission])
    ∧ has_status "resolved" issue.
Proof.
  destruct (post_issue_status_default (mkEnv "id-1" sampleNow) MemStorage.new
              resolvedSubmission resolvedSubmission)
    as (issue & st' & Hrun & _ & _ & _ & _ & Hs);
    [vm_compute; reflexivity|].
  exists issue, st'. split; [exact Hrun|].
  apply Hs; [vm_compute; reflexivity | discriminate].
Defined.

(** ** [POST /api/issues/:id/comments] *)

Lemma post_comment_not_found (e : Env) (st : MemStorage.t) (id : string)
    (body : Obj) :
  MemStorage.getIssue st id = None →
  serve (post_comment e id body) st
  = (inr (mkResponse 404 (message "Issue not found")),
     mkServer st [CallGetIssue id]).
Proof.
  intros Hget. run_handler.
  simpl. by rewrite Hget.
Qed.

Lemma post_comment_invalid (e : Env) (st : MemStorage.t) (id : string)
    (body issue : Obj) (x : Exn) :
  MemStorage.getIssue st id = Some issue →
  parse insertCommentSchema (<["issueId" := JStr id]> body) = inl x →
  ∃ m, serve (post_comment e id body) st
       = (inr (mkResponse 400 (message m)), mkServer st [CallGetIssue id]).
Proof.
  intros Hget Hparse. destruct (parse_fail_inv _ _ _ Hparse) as [m ->].
  exists m. run_handler.
  simpl. by rewrite Hget, Hparse.
Qed.

Lemma post_comment_valid (e : Env) (st : MemStorage.t) (id : string)
    (body issue validated : Obj) :
  MemStorage.getIssue st id = Some issue →
  parse insertCommentSchema (<["issueId" := JStr id]> body) = inr validated →
  serve (post_comment e id body) st
  = (inr (mkResponse 201 (MemStorage.createComment e st validated).2),
     mkServer (MemStorage.createComment e st validated).1
       [CallGetIssue id; CallCreateComment validated]).
Proof.
  intros Hget Hparse.
  run_handler.
  simpl. by rewrite Hget, Hparse.
Qed.

(** C6.  [POST /api/issues/:id/comments] for an identifier under which
    the store holds no issue answers 404 after the lookup alone, and the
    store, comments included, is as before.  Whatever the request, the
    handler answers after at most two data-access calls, and unless the
    answer is 201 the store is unchanged; when it is 201 the issues are
    unchanged and the one comment returned has been added. *)
Theorem post_comment_unknown_issue (e : Env) (st : MemStorage.t) (id : string)
    (body : Obj) :
  (MemStorage.getIssue st id = None →
   serve (post_comment e id body) st
   = (inr (mkResponse 404 (message "Issue not found")),
      mkServer st [CallGetIssue id]))
  ∧ ∃ res st' log,
      serve (post_comment e id body) st = (inr res, mkServer st' log)
      ∧ (length log ≤ 2)%nat
      ∧ (statusCode res ≠ 201 → st' = st)
      ∧ (statusCode res = 201 →
           MemStorage.issues st' = MemStorage.issues st
           ∧ MemStorage.comments st'
             = JsMap.set (uuid e) (json res) (MemStorage.comments st)).
Proof.
  split; [apply post_comment_not_found|].
  destruct (MemStorage.getIssue st id) as [issue|] eqn:Hget.
  - destruct (parse insertCommentSchema (<["issueId" := JStr id]> body))
      as [x|validated] eqn:Hparse.
    + destruct (post_comment_invalid e st id body issue x Hget Hparse)
        as [m Hrun].
      eexists _, _, _. split; [exact Hrun|]. simpl.
      split_and!; [lia|done|done].
    + eexists _, _, _. split; [by eapply post_comment_valid|]. simpl.
      split_and!; [lia|done|done].
  - eexists _, _, _. split; [by apply post_comment_not_found|]. simpl.
    split_and!; [lia|done|done].
Qed.

(** A comment on an issue that the store does not hold. *)
Lemma post_comment_unknown_issue_witness :
  serve (post_comment (mkEnv "c9" sampleNow) "zz" sampleCommentBody) sampleThread
  = (inr (mkResponse 404 (message "Issue not found")),
     mkServer sampleThread [CallGetIssue "zz"]).
Proof.
  apply (post_comment_unknown_issue (mkEnv "c9" sampleNow) sampleThread "zz"
           sampleCommentBody).
  reflexivity.
Defined.

(** C10.  When the parent issue exists and the body, with [issueId] set
    to the identifier of the path, passes validation, the handler answers
    201 with the comment it stored, and the [issueId] of that comment is
    the identifier of the path; an [issueId] in the body changes nothing
    of the handler's run. *)
Theorem post_comment_issueId (e : Env) (st : MemStorage.t) (id : string)
    (body issue validated : Obj) :
  MemStorage.getIssue st id = Some issue →
  parse insertCommentSchema (<["issueId" := JStr id]> body) = inr validated →
  ∃ comment st',
    serve (post_comment e id body) st
    = (inr (mkResponse 201 comment),
       mkServer st' [CallGetIssue id; CallCreateComment validated])
    ∧ of_issue id comment
    ∧ JsMap.get (uuid e) (MemStorage.comments st') = Some comment
    ∧ ∀ v, serve (post_comment e id (<["issueId" := v]> body)) st
           = serve (post_comment e id body) st.
Proof.
  intros Hget Hparse. eexists _, _.
  split; [by eapply post_comment_valid|].
  destruct (parse_ok_inv _ _ _ Hparse) as [-> _].
  split_and!.
  - unfold of_issue, MemStorage.createComment. cbn [snd].
    rewrite !lookup_insert_ne by done.
    rewrite strip_lookup, decide_True
      by by_evaluation.
    by rewrite lookup_insert_eq.
  - apply get_set_eq.
  - intros v. unfold serve, post_comment. by rewrite insert_insert_eq.
Qed.

(** A comment posted under [a] whose body names [b] belongs to [a]. *)
Lemma post_comment_issueId_witness :
  ∃ comment st',
    serve (post_comment (mkEnv "c9" sampleNow) "a" sampleCommentBody) sampleThread
    = (inr (mkResponse 201 comment),
       mkServer st' [CallGetIssue "a";
                     CallCreateComment (<["issueId" := JStr "a"]> sampleCommentBody)])
    ∧ of_issue "a" comment.
Proof.
  destruct (post_comment_issueId (mkEnv "c9" sampleNow) sampleThread "a"
              sampleCommentBody issueA (<["issueId" := JStr "a"]> sampleCommentBody))
    as (comment & st' & Hrun & Hof & _).
  - reflexivity.
  - vm_compute. reflexivity.
  - exists comment, st'. done.
Defined.

(** ** Validation at the API boundary *)

(** C7, as the code has it.  [POST /api/issues] validates the body
    against [insertIssueSchema] before any data-access call, and
    [POST /api/issues/:id/comments] validates the body, with [issueId] set
    from the path, against [insertCommentSchema] after the lookup of the
    parent issue and before [createComment].  A body that fails is
    answered 400 with a message, the store is unchanged and the creating
    operation is not called; a body that passes reaches the creating
    operation stripped to the fields of the schema and of the schema's
    type.  Validation accepts exactly the bodies whose required fields are
    strings and whose optional fields are strings when present ([null]
    being allowed for [assignedTo]): every string is accepted as status or
    priority, and no default is filled in. *)
Theorem post_validation (e : Env) (st : MemStorage.t) :
  (∀ body,
     match parse insertIssueSchema body with
     | inl _ =>
         ∃ m, serve (post_issue e body) st
              = (inr (mkResponse 400 (message m)), mkServer st [])
     | inr validated =>
         validated = strip insertIssueSchema body
         ∧ conforms insertIssueSchema validated
         ∧ ∃ issue st',
             serve (post_issue e body) st
             = (inr (mkResponse 201 issue),
                mkServer st' [CallCreateIssue validated])
     end)
  ∧ (∀ id body issue,
       MemStorage.getIssue st id = Some issue →
       match parse insertCommentSchema (<["issueId" := JStr id]> body) with
       | inl _ =>
           ∃ m, serve (post_comment e id body) st
                = (inr (mkResponse 400 (message m)),
                   mkServer st [CallGetIssue id])
       | inr validated =>
           validated = strip insertCommentSchema (<["issueId" := JStr id]> body)
           ∧ conforms insertCommentSchema validated
           ∧ ∃ comment st',
               serve (post_comment e id body) st
               = (inr (mkResponse 201 comment),
                  mkServer st' [CallGetIssue id; CallCreateComment validated])
       end)
  ∧ (∀ s body,
       (∃ validated, parse s body = inr validated)
       ↔ ∀ k kind, (k, kind) ∈ s → field_ok kind (body !! k) = true)
  ∧ (∀ kind v,
       field_ok kind v = true
       ↔ (∃ str, v = Some (JStr str))
         ∨ (v = None ∧ kind ≠ Required)
         ∨ (v = Some JNull ∧ kind = OptionalNullable)).
Proof.
  split_and!.
  - intros body.
    destruct (parse insertIssueSchema body) as [x|validated] eqn:Hparse.
    + by eapply post_issue_invalid.
    + split_and!.
      * by destruct (parse_ok_inv _ _ _ Hparse).
      * by eapply parse_conforms.
      * eexists _, _. by apply post_issue_valid.
  - intros id body issue Hget.
    destruct (parse insertCommentSchema (<["issueId" := JStr id]> body))
      as [x|validated] eqn:Hparse.
    + by eapply post_comment_invalid.
    + split_and!.
      * by destruct (parse_ok_inv _ _ _ Hparse).
      * by eapply parse_conforms.
      * eexists _, _. by eapply post_comment_valid.
  - intros s body. split.
    + intros [validated Hparse]. by destruct (parse_ok_inv _ _ _ Hparse).
    + intros Hok. eexists. by apply parse_ok_intro.
  - intros kind v. split.
    + destruct v as [[]|], kind; simpl; intros Hok; try done; eauto.
    + intros [[str ->]|[[-> Hk]|[-> ->]]]; [done| |done].
      by destruct kind.
Qed.

(** The claim C7 as written fails.  [PATCH /api/issues/:id] hands a body
    that the schema refuses, a status that is a number, to [updateIssue],
    which stores it, and answers 200; and [POST /api/issues] accepts a
    status outside the enumeration and stores it. *)
Lemma validation_gaps :
  parse (partial insertIssueSchema) numericPatch
  = inl (Error (zodMessage ["status"]))
  ∧ serve (patch_issue (mkEnv "" sampleNow) "a" numericPatch) fiveIssues
    = (inr (mkResponse 200 patchedA),
       mkServer
         (MemStorage.mk
            [("a", patchedA); ("b", issueB); ("c", issueC); ("d", issueD);
             ("e", issueE)] [])
         [CallUpdateIssue "a" numericPatch])
  ∧ patchedA !! "status" = Some (JNum 5)
  ∧ serve (post_issue (mkEnv "id-1" sampleNow) bogusSubmission) MemStorage.new
    = (inr (mkResponse 201 bogusIssue),
       mkServer (MemStorage.mk [("id-1", bogusIssue)] [])
         [CallCreateIssue bogusSubmission])
  ∧ has_status "bogus" bogusIssue.
Proof.
  split_and!; vm_compute; reflexivity.
Qed.

(** A submission without a title is refused before any call. *)
Lemma post_validation_witness :
  ∃ m, serve (post_issue (mkEnv "id-1" sampleNow) untitledSubmission) fiveIssues
       = (inr (mkResponse 400 (message m)), mkServer fiveIssues []).
Proof.
  destruct (post_validation (mkEnv "id-1" sampleNow) fiveIssues) as (Hissue & _).
  specialize (Hissue untitledSubmission).
  assert (Hparse : parse insertIssueSchema untitledSubmission
                   = inl (Error (zodMessage ["title"])))
    by (vm_compute; reflexivity).
  rewrite Hparse in Hissue. exact Hissue.
Defined.

(** ** More on sorting *)
Section SortMore.
Context {A : Type} (cmp : A → A → Z).

Lemma orders_sublist (l k : list A) : k ⊆ l → orders cmp l → orders cmp k.
Proof.
  intros Hsub [Htot Htrans]. split.
  - intros x y Hx Hy. apply Htot; by apply Hsub.
  - intros x y z Hx Hy Hz. apply Htrans; by apply Hsub.
Qed.

Lemma js_sort_ordered (l : list A) :
  orders cmp l → StronglySorted (λ a b, cmp a b ≤ 0) (js_sort cmp l).
Proof.
  intros [Htot Htrans].
  assert (Hs : Sorted (λ a b, cmp a b ≤ 0) (js_sort cmp l)).
  { apply js_sort_sorted; [done|]. intros x y Hx Hy. by apply Htot. }
  assert (Hin : ∀ x, x ∈ js_sort cmp l → x ∈ l).
  { intros x Hx. by rewrite js_sort_perm in Hx. }
  revert Hs Hin. generalize (js_sort cmp l). intros s Hs.
  induction Hs as [|a s Hs IH Hhd]; intros Hin; constructor.
  - apply IH. intros x Hx. apply Hin. by right.
  - assert (IH' := IH (λ x Hx, Hin x (list_elem_of_further _ _ _ Hx))).
    destruct Hhd as [|b s Hab]; constructor; [done|].
    apply StronglySorted_cons in IH' as [Hb _].
    apply Forall_forall. intros z Hz.
    apply (Htrans a b z); [apply Hin; left|apply Hin; right; left|
                             apply Hin; right; by right|done|].
    by apply (proj1 (Forall_forall _ _) Hb).
Qed.

(** Inserting into a sorted list commutes with filtering. *)
Lemma filter_sort_insert (P : A → Prop) `{∀ x, Decision (P x)} (x : A)
    (s : list A) :
  orders cmp (x :: s) →
  StronglySorted (λ a b, cmp a b ≤ 0) s →
  filter P (sort_insert cmp x s)
  = if decide (P x) then sort_insert cmp x (filter P s) else filter P s.
Proof.
  intros [Htot Htrans] Hs. induction Hs as [|y s Hs IH Hy]; simpl.
  - rewrite filter_cons, filter_nil. by case_decide.
  - assert (IH' : filter P (sort_insert cmp x s)
                  = if decide (P x) then sort_insert cmp x (filter P s)
                    else filter P s).
    { assert (Hsub : ∀ a, a ∈ x :: s → a ∈ x :: y :: s).
      { intros a [->|Ha]%elem_of_cons; [left | right; by right]. }
      apply IH.
      - intros a b Ha Hb. apply Htot; by apply Hsub.
      - intros a b c Ha Hb Hc. apply Htrans; by apply Hsub. }
    destruct (decide (cmp x y ≤ 0)) as [Hxy|Hxy].
    + rewrite filter_cons. destruct (decide (P x)) as [HP|HP]; [|done].
      destruct (filter P (y :: s)) as [|z k] eqn:Hf; [done|]. simpl.
      rewrite decide_True; [done|].
      assert (Hz : z ∈ y :: s).
      { assert (z ∈ filter P (y :: s)) by (rewrite Hf; left).
        by apply list_elem_of_filter in H0 as [_ ?]. }
      apply elem_of_cons in Hz as [->|Hz]; [done|].
      apply (Htrans x y z); [left|right; left|right; by right|done|].
      by apply (proj1 (Forall_forall _ _) Hy).
    + rewrite (filter_cons _ y (sort_insert cmp x s)), (filter_cons _ y s), IH'.
      destruct (decide (P y)) as [HPy|HPy]; [|done].
      destruct (decide (P x)) as [HP|HP]; [|done].
      simpl. by rewrite decide_False.
Qed.

(** Sorting commutes with filtering. *)
Lemma filter_js_sort (P : A → Prop) `{∀ x, Decision (P x)} (l : list A) :
  orders cmp l → filter P (js_sort cmp l) = js_sort cmp (filter P l).
Proof.
  induction l as [|x l IH]; intros Hord; [done|].
  assert (Hl : orders cmp l).
  { apply (orders_sublist (x :: l)); [|done]. intros z Hz. by right. }
  unfold js_sort in *. simpl. rewrite filter_sort_insert.
  - rewrite filter_cons, IH by done. by case_decide.
  - apply (orders_sublist (x :: l)); [|done].
    intros z [->|Hz]%elem_of_cons; [left|right].
    by rewrite (js_sort_perm cmp l) in Hz.
  - by apply js_sort_ordered.
Qed.

(** An element that goes after every other one lands at the end. *)
Lemma js_sort_snoc_last (l : list A) (c : A) :
  (∀ x, x ∈ l → cmp x c ≤ 0) → js_sort cmp (l ++ [c]) = (js_sort cmp l ++ [c])%list.
Proof.
  intros Hc. unfold js_sort. rewrite foldr_app. simpl.
  induction l as [|x l IH]; [done|]. simpl.
  rewrite IH by (intros y Hy; apply Hc; by right).
  assert (Hx : cmp x c ≤ 0) by (apply Hc; left).
  clear IH. induction (foldr (sort_insert cmp) [] l) as [|y s IHs]; simpl.
  - by rewrite decide_True.
  - case_decide; [done|]. by rewrite IHs.
Qed.

(** An element that goes before every other one lands at the front. *)
Lemma js_sort_snoc_first (l : list A) (c : A) :
  (∀ x, x ∈ l → ¬ cmp x c ≤ 0) → js_sort cmp (l ++ [c])%list = c :: js_sort cmp l.
Proof.
  intros Hc. unfold js_sort. rewrite foldr_app. simpl.
  induction l as [|x l IH]; [done|]. simpl.
  rewrite IH by (intros y Hy; apply Hc; by right). simpl.
  rewrite decide_False; [done|]. apply Hc. left.
Qed.

End SortMore.

(** ** Issue lists *)

Lemma byCreatedAtDesc_dated (a b : Obj) (x y : Z) :
  stamp "createdAt" a x → stamp "createdAt" b y → byCreatedAtDesc a b = y - x.
Proof. unfold stamp, byCreatedAtDesc. by intros -> ->. Qed.

Lemma byCreatedAtDesc_orders (l : list Obj) :
  (∀ issue, issue ∈ l → ∃ t, stamp "createdAt" issue t) →
  orders byCreatedAtDesc l.
Proof.
  intros Hd. split.
  - intros a b Ha Hb. destruct (Hd a Ha) as [x Hx], (Hd b Hb) as [y Hy].
    rewrite (byCreatedAtDesc_dated a b x y), (byCreatedAtDesc_dated b a y x)
      by done. lia.
  - intros a b c Ha Hb Hc.
    destruct (Hd a Ha) as [x Hx], (Hd b Hb) as [y Hy], (Hd c Hc) as [z Hz].
    rewrite (byCreatedAtDesc_dated a b x y), (byCreatedAtDesc_dated b c y z),
      (byCreatedAtDesc_dated a c x z) by done. lia.
Qed.

Lemma newest_first (l : list Obj) :
  (∀ issue, issue ∈ l → ∃ t, stamp "createdAt" issue t) →
  StronglySorted (λ a b, created_le b a) (js_sort byCreatedAtDesc l).
Proof.
  intros Hd.
  assert (Hs := js_sort_ordered byCreatedAtDesc l (byCreatedAtDesc_orders l Hd)).
  assert (Hin : Forall (λ i, ∃ t, stamp "createdAt" i t) (js_sort byCreatedAtDesc l)).
  { apply Forall_forall. intros i Hi. apply Hd. by rewrite js_sort_perm in Hi. }
  revert Hs Hin. generalize (js_sort byCreatedAtDesc l). intros s Hs.
  induction Hs as [|a s Hs IH Ha]; intros Hin; constructor.
  - apply IH. by apply Forall_cons in Hin as [_ ?].
  - apply Forall_cons in Hin as [[x Hx] Hin].
    apply Forall_forall. intros b Hb.
    destruct (proj1 (Forall_forall _ _) Hin b Hb) as [y Hy].
    assert (Hab := proj1 (Forall_forall _ _) Ha b Hb). simpl in Hab.
    rewrite (byCreatedAtDesc_dated a b x y) in Hab by done.
    exists y, x. split_and!; [done..|lia].
Qed.

(** [getAllIssues] returns every issue of the store once, and none else;
    when the issues carry their creation dates, the list is in
    descending order of [createdAt], and issues of equal date keep the
    order in which they were created. *)
Theorem getAllIssues_newest_first (st : MemStorage.t) :
  let result := MemQueries.getAllIssues st in
  result ≡ₚ JsMap.values (MemStorage.issues st)
  ∧ (NoDup (JsMap.keys (MemStorage.issues st)) →
     ∀ issue, issue ∈ result ↔ ∃ id, MemStorage.getIssue st id = Some issue)
  ∧ (issues_dated st →
     StronglySorted (λ a b, created_le b a) result
     ∧ ∀ t, filter (λ issue, stamp "createdAt" issue t) result
            = filter (λ issue, stamp "createdAt" issue t)
                (JsMap.values (MemStorage.issues st))).
Proof.
  intros result. subst result. unfold MemQueries.getAllIssues. split_and!.
  - apply js_sort_perm.
  - intros Hk issue. rewrite js_sort_perm. split.
    + by apply elem_values_get.
    + intros [id Hget]. by eapply get_elem_values.
  - intros Hd. split; [by apply newest_first|].
    intros t. rewrite filter_js_sort by (by apply byCreatedAtDesc_orders).
    set (l := filter _ _).
    assert (Hl : ∀ i, i ∈ l → stamp "createdAt" i t).
    { intros i Hi. by apply list_elem_of_filter in Hi as [? _]. }
    clearbody l. unfold js_sort.
    induction l as [|i l IH]; [done|]. simpl.
    rewrite IH by (intros j Hj; apply Hl; by right).
    destruct l as [|j l]; [done|]. simpl.
    rewrite decide_True; [done|].
    rewrite (byCreatedAtDesc_dated i j t t); [lia|apply Hl; left|].
    apply Hl. right. left.
Qed.


Lemma getTime_stamp (f : string) (o : Obj) (t : Z) :
  getTime (o !! f) = Some t ↔ stamp f o t.
Proof.
  unfold stamp. destruct (o !! f) as [[]|]; simpl; split; congruence.
Qed.

(** The dates of a list of records, checked by evaluation. *)
Lemma dated_before (f : string) (T : Z) (l : list Obj) :
  Forall (λ o, from_option (λ t, t < T) False (getTime (o !! f))) l →
  ∀ o, o ∈ l → ∃ t, stamp f o t ∧ t < T.
Proof.
  intros Hl o Ho. apply (proj1 (Forall_forall _ _) Hl) in Ho.
  destruct (getTime (o !! f)) as [t|] eqn:Ht; [|done].
  exists t. split; [by apply getTime_stamp | done].
Qed.

Lemma fiveIssues_dated : issues_dated fiveIssues.
Proof.
  intros issue Hin.
  destruct (dated_before "createdAt" sampleNow
              (JsMap.values (MemStorage.issues fiveIssues))) with issue
    as (t & Ht & _); [by_evaluation|done|eauto].
Qed.

(** The dashboard list of the five sample issues. *)
Lemma getAllIssues_newest_first_witness :
  MemQueries.getAllIssues fiveIssues = fiveNewestFirst
  ∧ StronglySorted (λ a b, created_le b a) (MemQueries.getAllIssues fiveIssues).
Proof.
  split; [by_evaluation|].
  destruct (getAllIssues_newest_first fiveIssues) as (_ & _ & Hsorted).
  by destruct (Hsorted fiveIssues_dated).
Defined.

(** [getIssuesByCustomerEmail] returns the issues whose [customerEmail]
    is exactly the given string, each once and no other: an address that
    differs, be it only in case, matches nothing of it.  When the
    issues carry their creation dates, the result is the list of
    [getAllIssues] restricted to that address, newest first. *)
Theorem getIssuesByCustomerEmail_exact (st : MemStorage.t) (email : string) :
  let result := MemQueries.getIssuesByCustomerEmail st email in
  result ≡ₚ filter (of_customer email) (JsMap.values (MemStorage.issues st))
  ∧ (∀ issue, issue ∈ result
              ↔ issue ∈ JsMap.values (MemStorage.issues st)
                ∧ of_customer email issue)
  ∧ (∀ issue other, of_customer other issue → other ≠ email → issue ∉ result)
  ∧ (issues_dated st →
     result = filter (of_customer email) (MemQueries.getAllIssues st)
     ∧ StronglySorted (λ a b, created_le b a) result).
Proof.
  intros result. subst result. unfold MemQueries.getIssuesByCustomerEmail.
  rewrite (list_filter_iff _ (of_customer email)) by done.
  assert (Hmem : ∀ issue,
            issue ∈ js_sort byCreatedAtDesc
                      (filter (of_customer email)
                         (JsMap.values (MemStorage.issues st)))
            ↔ issue ∈ JsMap.values (MemStorage.issues st)
              ∧ of_customer email issue).
  { intros issue. rewrite js_sort_perm, list_elem_of_filter. tauto. }
  split_and!.
  - apply js_sort_perm.
  - exact Hmem.
  - intros issue other Hother Hne [_ Hin]%Hmem.
    unfold of_customer in *. congruence.
  - intros Hd. split.
    + unfold MemQueries.getAllIssues.
      by rewrite filter_js_sort by (by apply byCreatedAtDesc_orders).
    + apply newest_first. intros issue [_ Hin]%list_elem_of_filter.
      by apply Hd.
Qed.

(** The tickets that the sample issues hold for one address. *)
Lemma getIssuesByCustomerEmail_exact_witness :
  MemQueries.getIssuesByCustomerEmail fiveIssues "ada@example.org"
  = fiveNewestFirst
  ∧ MemQueries.getIssuesByCustomerEmail fiveIssues "Ada@example.org" = [].
Proof.
  destruct (getIssuesByCustomerEmail_exact fiveIssues "ada@example.org")
    as (_ & _ & _ & Hd).
  destruct (Hd fiveIssues_dated) as [-> _].
  split; by_evaluation.
Defined.

(** A submission under a fresh identifier, at a time after the creation
    of every stored issue, goes to the top of [getAllIssues] and of the
    list of its customer, and leaves the rest of both lists, and the lists
    of the other customers, as they were. *)
Theorem createIssue_on_top (e : Env) (st : MemStorage.t) (insertIssue : Obj) :
  MemStorage.getIssue st (uuid e) = None →
  (∀ issue, issue ∈ JsMap.values (MemStorage.issues st) →
     ∃ t, stamp "createdAt" issue t ∧ t < now e) →
  let st' := (MemStorage.createIssue e st insertIssue).1 in
  let issue := (MemStorage.createIssue e st insertIssue).2 in
  MemQueries.getAllIssues st' = issue :: MemQueries.getAllIssues st
  ∧ ∀ email,
      MemQueries.getIssuesByCustomerEmail st' email
      = if decide (insertIssue !! "customerEmail" = Some (JStr email))
        then issue :: MemQueries.getIssuesByCustomerEmail st email
        else MemQueries.getIssuesByCustomerEmail st email.
Proof.
  intros Hfresh Hold st' issue.
  assert (Hvalues : JsMap.values (MemStorage.issues st')
                    = (JsMap.values (MemStorage.issues st) ++ [issue])%list).
  { subst st' issue. unfold MemStorage.createIssue.
    cbn [fst snd MemStorage.issues].
    apply get_None_keys in Hfresh. rewrite set_new by done.
    unfold JsMap.values. by rewrite fmap_app. }
  assert (Hissue : stamp "createdAt" issue (now e)).
  { subst issue. unfold stamp, MemStorage.createIssue. cbn [snd].
    by rewrite lookup_insert_ne, lookup_insert_eq by done. }
  assert (Hemail : issue !! "customerEmail" = insertIssue !! "customerEmail").
  { subst issue. unfold MemStorage.createIssue. cbn [snd].
    by rewrite !lookup_insert_ne by done. }
  assert (Hlater : ∀ x, x ∈ JsMap.values (MemStorage.issues st) →
                        ¬ byCreatedAtDesc x issue ≤ 0).
  { intros x Hx. destruct (Hold x Hx) as (t & Ht & Hlt).
    rewrite (byCreatedAtDesc_dated x issue t (now e)) by done. lia. }
  split.
  - unfold MemQueries.getAllIssues. rewrite Hvalues.
    by apply js_sort_snoc_first, Hlater.
  - intros email. unfold MemQueries.getIssuesByCustomerEmail.
    rewrite Hvalues, filter_app.
    destruct (decide (insertIssue !! "customerEmail" = Some (JStr email)))
      as [Hmine|Hother].
    + rewrite filter_cons_True, filter_nil by (by rewrite Hemail).
      apply js_sort_snoc_first.
      intros x [_ Hx]%list_elem_of_filter. by apply Hlater.
    + rewrite filter_cons_False, filter_nil by (by rewrite Hemail).
      by rewrite app_nil_r.
Qed.

(** A sixth submission on the five sample issues. *)
Lemma createIssue_on_top_witness :
  let r := MemStorage.createIssue (mkEnv "f" sampleNow) fiveIssues
             sampleInsertIssue in
  MemQueries.getAllIssues r.1 = r.2 :: fiveNewestFirst.
Proof.
  destruct (createIssue_on_top (mkEnv "f" sampleNow) fiveIssues sampleInsertIssue)
    as [Hall _].
  - reflexivity.
  - apply dated_before. by_evaluation.
  - assert (Hfive : MemQueries.getAllIssues fiveIssues = fiveNewestFirst)
      by by_evaluation.
    intros r. subst r. by rewrite Hall, Hfive.
Defined.

(** ** Threads *)

Lemma byCreatedAtAsc_dated (a b : Obj) (x y : Z) :
  stamp "createdAt" a x → stamp "createdAt" b y → byCreatedAtAsc a b = x - y.
Proof. unfold stamp, byCreatedAtAsc. by intros -> ->. Qed.

(** [createComment] stores the record it returns under the identifier
    drawn for it: the input's fields, [isInternal] defaulted to ["false"]
    when it is left out or empty, the identifier and the time of the call
    as [createdAt].  It does not look at the issues: the comment is stored
    whether or not its issue exists, and the issues are as before. *)
Lemma createComment_stored (e : Env) (st : MemStorage.t) (insertComment : Obj) :
  let st' := (MemStorage.createComment e st insertComment).1 in
  let comment := (MemStorage.createComment e st insertComment).2 in
  JsMap.get (uuid e) (MemStorage.comments st') = Some comment
  ∧ MemStorage.issues st' = MemStorage.issues st
  ∧ comment !! "id" = Some (JStr (uuid e))
  ∧ stamp "createdAt" comment (now e)
  ∧ (insertComment !! "isInternal" = None →
     comment !! "isInternal" = Some (JStr "false"))
  ∧ (∀ s, insertComment !! "isInternal" = Some (JStr s) →
       comment !! "isInternal" = Some (JStr (if decide (s = "") then "false" else s)))
  ∧ (∀ k, k ∉ commentFields → comment !! k = insertComment !! k)
  ∧ (∀ id, id ≠ uuid e →
       JsMap.get id (MemStorage.comments st')
       = JsMap.get id (MemStorage.comments st)).
Proof.
  intros st' comment. subst st' comment. unfold MemStorage.createComment.
  cbn [fst snd MemStorage.issues MemStorage.comments]. unfold stamp.
  split_and!.
  - apply get_set_eq.
  - done.
  - by rewrite lookup_insert_ne, lookup_insert_eq by done.
  - by rewrite lookup_insert_eq.
  - intros Hnone. rewrite !lookup_insert_ne, lookup_insert_eq by done.
    by rewrite Hnone.
  - intros s Hs. rewrite !lookup_insert_ne, lookup_insert_eq by done.
    rewrite Hs. f_equal. by apply (js_or_default (Some (JStr s))).
  - intros k Hk. unfold commentFields in Hk. rewrite !not_elem_of_cons in Hk.
    destruct Hk as (? & ? & ? & _). by rewrite !lookup_insert_ne by done.
  - intros id Hne. by apply get_set_ne.
Qed.

(** A comment created under a fresh identifier, at a time that is not
    before the comments of its issue, is appended to the thread of that
    issue: [getCommentsByIssueId] returns the earlier thread followed by
    the new comment, and the threads of the other issues are unchanged.
    The issue itself need not exist. *)
Theorem createComment_appends (e : Env) (st : MemStorage.t)
    (insertComment : Obj) (x : string) :
  insertComment !! "issueId" = Some (JStr x) →
  JsMap.get (uuid e) (MemStorage.comments st) = None →
  (∀ c, c ∈ JsMap.values (MemStorage.comments st) → of_issue x c →
     ∃ t, stamp "createdAt" c t ∧ t ≤ now e) →
  let st' := (MemStorage.createComment e st insertComment).1 in
  let comment := (MemStorage.createComment e st insertComment).2 in
  MemStorage.getCommentsByIssueId st' x
  = (MemStorage.getCommentsByIssueId st x ++ [comment])%list
  ∧ (∀ y, y ≠ x →
       MemStorage.getCommentsByIssueId st' y
       = MemStorage.getCommentsByIssueId st y)
  ∧ of_issue x comment
  ∧ stamp "createdAt" comment (now e).
Proof.
  intros Hx Hfresh Hold st' comment.
  assert (Hvalues : JsMap.values (MemStorage.comments st')
                    = (JsMap.values (MemStorage.comments st) ++ [comment])%list).
  { subst st' comment. unfold MemStorage.createComment.
    cbn [fst snd MemStorage.comments].
    apply get_None_keys in Hfresh. rewrite set_new by done.
    unfold JsMap.values. by rewrite fmap_app. }
  assert (Hof : of_issue x comment).
  { subst comment. unfold of_issue, MemStorage.createComment. cbn [snd].
    by rewrite !lookup_insert_ne by done. }
  assert (Hat : stamp "createdAt" comment (now e)).
  { subst comment. unfold stamp, MemStorage.createComment. cbn [snd].
    by rewrite lookup_insert_eq. }
  split_and!; [| |done..].
  - unfold MemStorage.getCommentsByIssueId. rewrite Hvalues, filter_app.
    rewrite filter_cons_True, filter_nil by done.
    apply js_sort_snoc_last. intros c [Hc Hin]%list_elem_of_filter.
    destruct (Hold c Hin Hc) as (t & Ht & Hle).
    rewrite (byCreatedAtAsc_dated c comment t (now e)) by done. lia.
  - intros y Hy. unfold MemStorage.getCommentsByIssueId.
    rewrite Hvalues, filter_app, filter_cons_False, filter_nil, app_nil_r; [done|].
    unfold of_issue in Hof. rewrite Hof. congruence.
Qed.

(** The team answers on issue [a] of the sample thread. *)
Lemma createComment_appends_witness :
  let r := MemStorage.createComment (mkEnv "c4" sampleNow) sampleThread
             sampleInsertComment in
  r.2 = commentC4
  ∧ MemStorage.getCommentsByIssueId r.1 "a" = [commentC3; commentC1; commentC4]
  ∧ MemStorage.getCommentsByIssueId r.1 "b" = [commentC2].
Proof.
  destruct (createComment_appends (mkEnv "c4" sampleNow) sampleThread
              sampleInsertComment "a") as (Ha & Hb & _).
  - by_evaluation.
  - reflexivity.
  - intros c Hin _.
    by apply (dated_before "createdAt" (sampleNow + 1)
                (JsMap.values (MemStorage.comments sampleThread)))
      in Hin as (t & ? & ?); [exists t; split; [done|simpl in *; lia]|by_evaluation].
  - intros r. subst r. split_and!.
    + by_evaluation.
    + rewrite Ha. by_evaluation.
    + rewrite Hb by done. by_evaluation.
Defined.

(** ** Successive updates *)

Lemma set_set {V} (m : JsMap.t V) (k : string) (v w : V) :
  JsMap.set k v (JsMap.set k w m) = JsMap.set k v m.
Proof.
  induction m as [|[k' v'] m IH]; simpl.
  - by rewrite decide_True.
  - destruct (decide (k' = k)) as [->|Hne]; simpl.
    + by rewrite decide_True.
    + by rewrite decide_False, IH.
Qed.

(** Setting a key that is present replaces its value where it stands. *)
Lemma values_set_old {V} (m : JsMap.t V) (k : string) (old v : V) :
  JsMap.get k m = Some old →
  ∃ pre post,
    JsMap.values m = (pre ++ old :: post)%list
    ∧ JsMap.values (JsMap.set k v m) = (pre ++ v :: post)%list.
Proof.
  unfold JsMap.values. induction m as [|[k' v'] m IH]; [done|].
  cbn [JsMap.get JsMap.set]. destruct (decide (k' = k)) as [->|Hne].
  - intros [= ->]. by exists [], m.*2.
  - intros Hget. destruct (IH Hget) as (pre & post & Hm & Hs).
    exists (v' :: pre), post. rewrite !fmap_cons, Hm, Hs. done.
Qed.

(** Two updates of an issue, one after the other, leave the store and
    return the record that the second call alone would with the fields of
    both, those of the second winning: the last write wins, and nothing is
    left of the first call's [updatedAt].  On an unknown identifier both
    sides return [undefined] and change nothing. *)
Theorem updateIssue_last_write_wins (e1 e2 : Env) (st : MemStorage.t)
    (id : string) (u1 u2 : Obj) :
  MemStorage.updateIssue e2 (MemStorage.updateIssue e1 st id u1).1 id u2
  = MemStorage.updateIssue e2 st id (spread u1 u2).
Proof.
  unfold MemStorage.updateIssue.
  destruct (JsMap.get id (MemStorage.issues st)) as [issue|] eqn:Hget;
    cbn [fst MemStorage.issues MemStorage.comments].
  - rewrite get_set_eq, set_set.
    assert (Hrec : <["updatedAt" := JDate (now e2)]>
                     (spread (<["updatedAt" := JDate (now e1)]> (spread issue u1)) u2)
                   = <["updatedAt" := JDate (now e2)]>
                       (spread issue (spread u1 u2))).
    { apply map_eq. intros k. unfold spread.
      destruct (decide (k = "updatedAt")) as [->|Hne].
      - by rewrite !lookup_insert_eq.
      - rewrite !lookup_insert_ne by done. rewrite !lookup_union.
        rewrite lookup_insert_ne by done. rewrite lookup_union.
        by destruct (u2 !! k), (u1 !! k), (issue !! k). }
    by rewrite Hrec.
  - by rewrite Hget.
Qed.

(** ** The list after an update *)

Lemma sort_insert_Forall2 {A} (cmp : A → A → Z) (R : relation A)
    (x x' : A) (s s' : list A) :
  (∀ a a' b b', R a a' → R b b' → cmp a b = cmp a' b') →
  R x x' → Forall2 R s s' →
  Forall2 R (sort_insert cmp x s) (sort_insert cmp x' s').
Proof.
  intros Hcmp Hx Hs. induction Hs as [|y y' s s' Hy Hs IH]; simpl.
  - by repeat constructor.
  - rewrite (Hcmp x x' y y') by done.
    case_decide; by repeat constructor.
Qed.

Lemma js_sort_Forall2 {A} (cmp : A → A → Z) (R : relation A) (l l' : list A) :
  (∀ a a' b b', R a a' → R b b' → cmp a b = cmp a' b') →
  Forall2 R l l' → Forall2 R (js_sort cmp l) (js_sort cmp l').
Proof.
  intros Hcmp Hl. unfold js_sort.
  induction Hl as [|x x' l l' Hx Hl IH]; simpl; [constructor|].
  by apply sort_insert_Forall2.
Qed.

(** An update that does not supply [createdAt] leaves [getAllIssues] in
    the same order: the list after the update is the list before it with
    the updated record in the place of the old one. *)
Theorem updateIssue_keeps_place (e : Env) (st : MemStorage.t) (id : string)
    (updates old : Obj) :
  MemStorage.getIssue st id = Some old →
  updates !! "createdAt" = None →
  ∃ updatedIssue st',
    MemStorage.updateIssue e st id updates = (st', Some updatedIssue)
    ∧ Forall2 (λ a a', a' = a ∨ (a = old ∧ a' = updatedIssue))
        (MemQueries.getAllIssues st) (MemQueries.getAllIssues st')
    ∧ length (MemQueries.getAllIssues st') = length (MemQueries.getAllIssues st).
Proof.
  intros Hget Hno. unfold MemStorage.updateIssue, MemStorage.getIssue in *.
  rewrite Hget. eexists _, _. split; [reflexivity|].
  set (new := <["updatedAt" := JDate (now e)]> (spread old updates)).
  assert (Hsame : new !! "createdAt" = old !! "createdAt").
  { subst new. rewrite lookup_insert_ne by done. by apply spread_lookup_old. }
  destruct (values_set_old (MemStorage.issues st) id old new Hget)
    as (pre & post & Hm & Hs).
  assert (HR : Forall2 (λ a a', a' = a ∨ (a = old ∧ a' = new))
                 (MemQueries.getAllIssues st)
                 (MemQueries.getAllIssues
                    (MemStorage.mk (JsMap.set id new (MemStorage.issues st))
                       (MemStorage.comments st)))).
  { unfold MemQueries.getAllIssues. cbn [MemStorage.issues]. rewrite Hm, Hs.
    apply js_sort_Forall2.
    - intros a a' b b' Ha Hb. unfold byCreatedAtDesc.
      assert (Ea : a' !! "createdAt" = a !! "createdAt")
        by (destruct Ha as [->|[-> ->]]; done).
      assert (Eb : b' !! "createdAt" = b !! "createdAt")
        by (destruct Hb as [->|[-> ->]]; done).
      by rewrite Ea, Eb.
    - apply Forall2_app; [|constructor; [by right|]];
        apply Forall_Forall2_diag, Forall_forall; intros; by left. }
  split; [exact HR|]. symmetry. by eapply Forall2_length.
Qed.

(** Issue [c] of the five is reassigned and stays third in the list. *)
Lemma updateIssue_keeps_place_witness :
  ∃ updatedIssue st',
    MemStorage.updateIssue (mkEnv "" sampleNow) fiveIssues "c"
      {[ "assignedTo" := JStr "Wilson Murphy" ]} = (st', Some updatedIssue)
    ∧ Forall2 (λ a a', a' = a ∨ (a = issueC ∧ a' = updatedIssue))
        [issueE; issueD; issueC; issueB; issueA] (MemQueries.getAllIssues st').
Proof.
  destruct (updateIssue_keeps_place (mkEnv "" sampleNow) fiveIssues "c"
              {[ "assignedTo" := JStr "Wilson Murphy" ]} issueC)
    as (updatedIssue & st' & Hrun & Hplace & _); [reflexivity|by_evaluation|].
  exists updatedIssue, st'. split; [exact Hrun|].
  assert (Hfive : MemQueries.getAllIssues fiveIssues
                  = [issueE; issueD; issueC; issueB; issueA]) by by_evaluation.
  by rewrite Hfive in Hplace.
Defined.

(** ** How the statistics move *)

Lemma length_filter_snoc {A} (P : A → Prop) `{∀ x, Decision (P x)}
    (l : list A) (x : A) :
  length (filter P (l ++ [x])%list)
  = (length (filter P l) + (if decide (P x) then 1 else 0))%nat.
Proof.
  rewrite filter_app, length_app, filter_cons, filter_nil.
  by case_decide.
Qed.

Lemma length_filter_mid {A} (P : A → Prop) `{∀ x, Decision (P x)}
    (pre post : list A) (x : A) :
  length (filter P (pre ++ x :: post)%list)
  = (length (filter P pre) + length (filter P post)
     + (if decide (P x) then 1 else 0))%nat.
Proof.
  rewrite filter_app, length_app, filter_cons.
  case_decide; simpl; lia.
Qed.

(** The three counts by status never add up to more than the number of
    issues scanned, nor does the count of urgent issues exceed it; an
    issue whose status is none of the three is counted under no status. *)
Theorem countStats_bounded (today : Z) (issues : list Obj) :
  let stats := countStats today issues in
  (openIssues stats + inProgress stats + resolvedToday stats ≤ length issues)%nat
  ∧ (urgent stats ≤ length issues)%nat
  ∧ (Forall (λ issue, ¬ has_status "open" issue
                      ∧ ¬ has_status "in-progress" issue
                      ∧ ¬ has_status "resolved" issue) issues →
     openIssues stats = 0%nat ∧ inProgress stats = 0%nat
     ∧ resolvedToday stats = 0%nat).
Proof.
  intros stats. subst stats. unfold countStats.
  cbn [openIssues inProgress resolvedToday urgent]. split_and!.
  - induction issues as [|i l IH]; [done|].
    rewrite !filter_cons. simpl length.
    destruct (i !! "status") as [[| | |s| |]|];
      repeat case_decide; simpl; try lia; exfalso;
      repeat match goal with H : _ ∧ _ |- _ => destruct H end; congruence.
  - apply length_filter.
  - intros Hnone. split_and!; apply length_zero_iff_nil, filter_none;
      intros i Hi; apply (proj1 (Forall_forall _ _) Hnone) in Hi;
      unfold has_status in Hi; destruct Hi as (? & ? & ?);
      try done; by intros [? _].
Qed.


(** An issue created under a fresh identifier adds one to each count
    whose condition its record meets and nothing to the others; a
    submission without status and priority adds one to [openIssues]
    only. *)
Theorem stats_after_createIssue (cal : Calendar) (e e' : Env)
    (st : MemStorage.t) (insertIssue : Obj) :
  MemStorage.getIssue st (uuid e) = None →
  let st' := (MemStorage.createIssue e st insertIssue).1 in
  let issue := (MemStorage.createIssue e st insertIssue).2 in
  let before := MemStorage.getIssueStats cal e' st in
  let after := MemStorage.getIssueStats cal e' st' in
  openIssues after = (openIssues before + indicator (has_status "open" issue))%nat
  ∧ inProgress after
    = (inProgress before + indicator (has_status "in-progress" issue))%nat
  ∧ resolvedToday after
    = (resolvedToday before
       + indicator (has_status "resolved" issue
                    ∧ (startOfDay cal (now e') ≤ now e)%Z))%nat
  ∧ urgent after = (urgent before + indicator (has_priority "urgent" issue))%nat
  ∧ (insertIssue !! "status" = None → insertIssue !! "priority" = None →
     after = mkStats (S (openIssues before)) (inProgress before)
               (resolvedToday before) (urgent before)).
Proof.
  intros Hfresh st' issue before after.
  assert (Hvalues : JsMap.values (MemStorage.issues st')
                    = (JsMap.values (MemStorage.issues st) ++ [issue])%list).
  { subst st' issue. unfold MemStorage.createIssue.
    cbn [fst snd MemStorage.issues].
    apply get_None_keys in Hfresh. rewrite set_new by done.
    unfold JsMap.values. by rewrite fmap_app. }
  assert (Hup : issue !! "updatedAt" = Some (JDate (now e))).
  { subst issue. unfold MemStorage.createIssue. cbn [snd].
    by rewrite lookup_insert_eq. }
  assert (H1 : openIssues after
               = (openIssues before + indicator (has_status "open" issue))%nat).
  { subst before after. unfold MemStorage.getIssueStats, countStats.
    cbn [openIssues]. rewrite Hvalues, length_filter_snoc.
    unfold indicator, has_status. by repeat case_decide. }
  assert (H2 : inProgress after
               = (inProgress before
                  + indicator (has_status "in-progress" issue))%nat).
  { subst before after. unfold MemStorage.getIssueStats, countStats.
    cbn [inProgress]. rewrite Hvalues, length_filter_snoc.
    unfold indicator, has_status. by repeat case_decide. }
  assert (H3 : resolvedToday after
               = (resolvedToday before
                  + indicator (has_status "resolved" issue
                               ∧ (startOfDay cal (now e') ≤ now e)%Z))%nat).
  { subst before after. unfold MemStorage.getIssueStats, countStats.
    cbn [resolvedToday]. rewrite Hvalues, length_filter_snoc.
    f_equal. unfold indicator, has_status, date_ge. rewrite Hup. simpl.
    apply decide_ext. by rewrite bool_decide_eq_true. }
  assert (H4 : urgent after
               = (urgent before + indicator (has_priority "urgent" issue))%nat).
  { subst before after. unfold MemStorage.getIssueStats, countStats.
    cbn [urgent]. rewrite Hvalues, length_filter_snoc.
    unfold indicator, has_priority. by repeat case_decide. }
  split_and!; [done..|].
  intros Hs Hp.
  assert (Hst : issue !! "status" = Some (JStr "open")).
  { subst issue. rewrite createIssue_status. by rewrite Hs. }
  assert (Hpr : issue !! "priority" = Some (JStr "medium")).
  { subst issue. rewrite createIssue_priority. by rewrite Hp. }
  destruct after as [a b c d]. simpl in *. subst a b c d.
  unfold indicator, has_status, has_priority.
  rewrite decide_True by done.
  rewrite !decide_False
    by (intros H; rewrite ?Hst, ?Hpr in H; (congruence || (destruct H; congruence))).
  f_equal; lia.
Qed.

(** A default submission on the five sample issues. *)
Lemma stats_after_createIssue_witness :
  MemStorage.getIssueStats utc (mkEnv "" sampleNow)
    (MemStorage.createIssue (mkEnv "f" sampleNow) fiveIssues sampleInsertIssue).1
  = mkStats 3 1 1 1.
Proof.
  destruct (stats_after_createIssue utc (mkEnv "f" sampleNow) (mkEnv "" sampleNow)
              fiveIssues sampleInsertIssue) as (_ & _ & _ & _ & Hdefault);
    [reflexivity|].
  rewrite Hdefault by by_evaluation. vm_compute. reflexivity.
Defined.

(** Resolving an issue, by an update whose status is [resolved] and that
    leaves the priority alone, made on the calendar day of the statistics
    call or later: the issue leaves the count of its old status and is
    counted in [resolvedToday], and no other count moves. *)
Theorem stats_after_resolve (cal : Calendar) (e e' : Env) (st : MemStorage.t)
    (id : string) (updates old : Obj) :
  MemStorage.getIssue st id = Some old →
  updates !! "status" = Some (JStr "resolved") →
  updates !! "priority" = None →
  startOfDay cal (now e') ≤ now e →
  let st' := (MemStorage.updateIssue e st id updates).1 in
  let before := MemStorage.getIssueStats cal e' st in
  let after := MemStorage.getIssueStats cal e' st' in
  openIssues before = (openIssues after + indicator (has_status "open" old))%nat
  ∧ inProgress before
    = (inProgress after + indicator (has_status "in-progress" old))%nat
  ∧ S (resolvedToday before)
    = (resolvedToday after
       + indicator (has_status "resolved" old
                    ∧ date_ge (old !! "updatedAt") (startOfDay cal (now e'))
                      = true))%nat
  ∧ urgent after = urgent before.
Proof.
  intros Hget Hs Hp Htoday st' before after.
  unfold MemStorage.getIssue in Hget.
  set (new := <["updatedAt" := JDate (now e)]> (spread old updates)).
  destruct (values_set_old (MemStorage.issues st) id old new Hget)
    as (pre & post & Hm & Hn).
  assert (Hvalues : JsMap.values (MemStorage.issues st')
                    = (pre ++ new :: post)%list).
  { subst st'. unfold MemStorage.updateIssue. by rewrite Hget. }
  assert (Hst : new !! "status" = Some (JStr "resolved")).
  { subst new. rewrite lookup_insert_ne by done. by apply spread_lookup_new. }
  assert (Hpr : new !! "priority" = old !! "priority").
  { subst new. rewrite lookup_insert_ne by done. by apply spread_lookup_old. }
  assert (Hup : date_ge (new !! "updatedAt") (startOfDay cal (now e')) = true).
  { subst new. rewrite lookup_insert_eq. unfold date_ge. simpl.
    by apply bool_decide_eq_true. }
  subst before after. unfold MemStorage.getIssueStats, countStats.
  cbn [openIssues inProgress resolvedToday urgent].
  rewrite Hvalues, Hm, !length_filter_mid.
  unfold indicator, has_status.
  rewrite (decide_False (P := new !! "status" = Some (JStr "open")))
    by (rewrite Hst; congruence).
  rewrite (decide_False (P := new !! "status" = Some (JStr "in-progress")))
    by (rewrite Hst; congruence).
  rewrite (decide_True (P := new !! "status" = Some (JStr "resolved") ∧ _))
    by done.
  rewrite (decide_ext (new !! "priority" = Some (JStr "urgent"))
             (old !! "priority" = Some (JStr "urgent"))) by (by rewrite Hpr).
  split_and!; repeat destruct (decide _); lia.
Qed.

(** Issue [a] of the five, open, is marked resolved. *)
Lemma stats_after_resolve_witness :
  MemStorage.getIssueStats utc (mkEnv "" sampleNow)
    (MemStorage.updateIssue (mkEnv "" sampleNow) fiveIssues "a"
       {[ "status" := JStr "resolved" ]}).1
  = mkStats 1 1 2 1.
Proof.
  destruct (stats_after_resolve utc (mkEnv "" sampleNow) (mkEnv "" sampleNow)
              fiveIssues "a" {[ "status" := JStr "resolved" ]} issueA)
    as (Ho & Hi & Hr & Hu).
  - reflexivity.
  - by_evaluation.
  - by_evaluation.
  - vm_compute. discriminate.
  - vm_compute. reflexivity.
Defined.

(** ** Users *)

Lemma find_snoc {A} (f : A → bool) (l : list A) (x : A) :
  List.find f (l ++ [x])%list
  = match List.find f l with
    | Some y => Some y
    | None => if f x then Some x else None
    end.
Proof.
  induction l as [|y l IH]; simpl; [done|].
  by destruct (f y).
Qed.

(** A user created under an unused identifier is found under it, and the
    users found by identifier before are found as before.  By name the
    store answers with the oldest user of that name: a name that is
    already taken is accepted for the new user, who is stored but is not
    the one found by name; the new user is found by the name only when
    nobody had it. *)
Theorem createUser_found (e : Env) (users : MemUsers.t) (insertUser : Obj)
    (name : string) :
  MemUsers.getUser users (uuid e) = None →
  let users' := (MemUsers.createUser e users insertUser).1 in
  let user := (MemUsers.createUser e users insertUser).2 in
  MemUsers.getUser users' (uuid e) = Some user
  ∧ (∀ id, id ≠ uuid e →
       MemUsers.getUser users' id = MemUsers.getUser users id)
  ∧ MemUsers.getUserByUsername users' name
    = match MemUsers.getUserByUsername users name with
      | Some older => Some older
      | None => if decide (insertUser !! "username" = Some (JStr name))
                then Some user else None
      end.
Proof.
  intros Hfresh users' user. subst users' user.
  unfold MemUsers.getUser, MemUsers.getUserByUsername, MemUsers.createUser in *.
  cbn [fst snd].
  split_and!.
  - apply get_set_eq.
  - intros id Hid. by apply get_set_ne.
  - apply get_None_keys in Hfresh.
    rewrite (set_new _ _ _ Hfresh).
    unfold JsMap.values. rewrite fmap_app. simpl.
    rewrite find_snoc.
    destruct (List.find _ users.*2); [done|].
    rewrite lookup_insert_ne by done.
    by destruct (decide _);
      [rewrite bool_decide_eq_true_2|rewrite bool_decide_eq_false_2].
Qed.

(** A second [ada] registers: the first one is still the one found. *)
Lemma createUser_found_witness :
  MemUsers.getUserByUsername
    (MemUsers.createUser (mkEnv "u2" 0) sampleUsers sampleInsertUser).1 "ada"
  = MemUsers.getUser sampleUsers "u1".
Proof.
  destruct (createUser_found (mkEnv "u2" 0) sampleUsers sampleInsertUser "ada")
    as (_ & _ & Hname); [reflexivity|].
  rewrite Hname. reflexivity.
Defined.

(** ** The handlers over any storage *)

(** Whatever the storage does, each handler answers: no rejection of the
    storage and no failure of the validation leaves a handler as an
    exception, and each handler has its own few status codes. *)
Theorem handlers_always_answer {S : Type} `{IStorage S} `{IStorageLists S}
    (cal : Calendar) (e : Env) (id email : string) (body : Obj)
    (srv : Server S) :
  (∃ r, (post_issue e body srv).1 = inr r ∧ statusCode r ∈ [201; 400; 500])
  ∧ (∃ r, (patch_issue e id body srv).1 = inr r
          ∧ statusCode r ∈ [200; 404; 500])
  ∧ (∃ r, (post_comment e id body srv).1 = inr r
          ∧ statusCode r ∈ [201; 400; 404; 500])
  ∧ (∃ r, (get_issues (storage srv)).1 = inr r ∧ replyStatus r ∈ [200; 500])
  ∧ (∃ r, (get_customer_issues email (storage srv)).1 = inr r
          ∧ replyStatus r ∈ [200; 500])
  ∧ (∃ r, (get_issue id (storage srv)).1 = inr r
          ∧ replyStatus r ∈ [200; 404; 500])
  ∧ (∃ r, (get_stats cal e (storage srv)).1 = inr r
          ∧ replyStatus r ∈ [200; 500]).
Proof.
  split_and!; run_handler; run_read; cbn [fst snd storage calls];
    repeat case_match; simplify_eq/=;
    eexists; (split; [reflexivity|]); cbn; set_solver.
Qed.

(** A rejection of [createIssue] with an [Error] is answered by
    [POST /api/issues] as a failed validation is: 400 with the message of
    the error; its 500 is left to a rejection with something that is not
    an [Error].  [PATCH /api/issues/:id] answers any rejection of
    [updateIssue] with 500, whatever the body. *)
Theorem storage_failure_status {S : Type} `{IStorage S} (e : Env)
    (id : string) (body validated : Obj) (x : Exn) (srv : Server S) :
  (parse insertIssueSchema body = inr validated →
   (createIssue e validated (storage srv)).1 = inl x →
   (post_issue e body srv).1
   = inr match x with
         | Error m => mkResponse 400 (message m)
         | Thrown => mkResponse 500 (message "Failed to create issue")
         end)
  ∧ ((updateIssue e id body (storage srv)).1 = inl x →
     (patch_issue e id body srv).1
     = inr (mkResponse 500 (message "Failed to update issue"))).
Proof.
  split.
  - intros Hparse Hcreate.
    run_handler. cbn [fst snd storage calls].
    rewrite Hparse.
    destruct (createIssue e validated (storage srv)) as [r s].
    simpl in *. subst r.
    by destruct x.
  - intros Hupdate.
    run_handler. cbn [fst snd storage calls].
    destruct (updateIssue e id body (storage srv)) as [r s].
    simpl in *. by subst r.
Qed.

(** The storage is offline while a well-formed issue is submitted, and
    while an issue is marked resolved. *)
Lemma storage_failure_status_witness :
  (post_issue (mkEnv "" 0) sampleInsertIssue (mkServer () [])).1
  = inr (mkResponse 400 (message "connection refused"))
  ∧ (patch_issue (mkEnv "" 0) "a" {[ "status" := JStr "resolved" ]}
       (mkServer () [])).1
    = inr (mkResponse 500 (message "Failed to update issue")).
Proof.
  split.
  - apply (proj1 (storage_failure_status (mkEnv "" 0) "a" sampleInsertIssue
                    sampleInsertIssue (Error "connection refused")
                    (mkServer () []))).
    + by_evaluation.
    + reflexivity.
  - apply (proj2 (storage_failure_status (mkEnv "" 0) "a"
                    {[ "status" := JStr "resolved" ]} ∅
                    (Error "connection refused") (mkServer () []))).
    reflexivity.
Defined.

(** ** Reading after writing *)

(** [GET /api/issues/:id] leaves the store as it is.  For an unknown
    identifier it answers 404; for a known one it answers 200 with the
    issue and a thread that holds exactly the stored comments of that
    issue, the internal notes as well as the others. *)
Theorem get_issue_reply (st : MemStorage.t) (id : string) :
  ∃ r, get_issue id st = (inr r, st)
    ∧ (MemStorage.getIssue st id = None →
       r = mkReply 404 (PMessage (message "Issue not found")))
    ∧ (∀ issue, MemStorage.getIssue st id = Some issue →
       ∃ thread,
         r = mkReply 200 (PIssue (delete "comments" issue) thread)
         ∧ ∀ comment,
             comment ∈ thread
             ↔ comment ∈ JsMap.values (MemStorage.comments st)
               ∧ comment !! "issueId" = Some (JStr id)).
Proof.
  run_read. simpl.
  destruct (MemStorage.getIssue st id) as [issue|] eqn:Hget.
  - eexists. split; [reflexivity|]. split; [done|].
    intros ? [= <-]. eexists. split; [reflexivity|].
    intros comment. unfold MemStorage.getCommentsByIssueId.
    rewrite js_sort_perm, list_elem_of_filter. tauto.
  - eexists. split; [reflexivity|]. split; [done|]. done.
Qed.

(** An issue that [POST /api/issues] has created is in the list that
    [GET /api/issues] sends next, is in the list of a customer exactly
    when the body was submitted under that e-mail address, and is what
    [GET /api/issues/:id] sends under its identifier. *)
Theorem post_issue_then_listed (e : Env) (st : MemStorage.t)
    (body validated : Obj) (email : string) :
  parse insertIssueSchema body = inr validated →
  let st' := storage (serve (post_issue e body) st).2 in
  let issue := (MemStorage.createIssue e st validated).2 in
  (serve (post_issue e body) st).1 = inr (mkResponse 201 issue)
  ∧ (∃ l, get_issues st' = (inr (mkReply 200 (PIssues l)), st') ∧ issue ∈ l)
  ∧ (∃ l, get_customer_issues email st' = (inr (mkReply 200 (PIssues l)), st')
          ∧ (issue ∈ l ↔ body !! "customerEmail" = Some (JStr email)))
  ∧ (∃ thread,
       get_issue (uuid e) st'
       = (inr (mkReply 200 (PIssue (delete "comments" issue) thread)), st')).
Proof.
  intros Hparse st' issue. subst st' issue.
  rewrite (post_issue_valid e st body validated Hparse). cbn [fst snd storage].
  assert (Hget : MemStorage.getIssue (MemStorage.createIssue e st validated).1
                   (uuid e)
                 = Some (MemStorage.createIssue e st validated).2)
    by apply get_set_eq.
  pose proof (get_elem_values _ _ _ Hget) as Hin.
  assert (Hemail : (MemStorage.createIssue e st validated).2 !! "customerEmail"
                   = body !! "customerEmail").
  { apply parse_ok_inv in Hparse as [-> _].
    unfold MemStorage.createIssue. cbn [snd].
    rewrite !lookup_insert_ne by done.
    rewrite strip_lookup. by rewrite decide_True by by_evaluation. }
  split_and!.
  - done.
  - eexists. split; [reflexivity|].
    unfold MemQueries.getAllIssues. by rewrite js_sort_perm.
  - eexists. split; [reflexivity|].
    unfold MemQueries.getIssuesByCustomerEmail.
    rewrite js_sort_perm, list_elem_of_filter, Hemail. tauto.
  - run_read. cbn [getIssue getCommentsByIssueId MemStorage_IStorage].
    rewrite Hget. by eexists.
Qed.

(** Ada's submission, then the lists. *)
Lemma post_issue_then_listed_witness :
  ∃ l, get_customer_issues "ada@example.org"
         (storage (serve (post_issue (mkEnv "f" sampleNow) sampleInsertIssue)
                     fiveIssues).2)
       = (inr (mkReply 200 (PIssues l)),
          storage (serve (post_issue (mkEnv "f" sampleNow) sampleInsertIssue)
                     fiveIssues).2)
       ∧ (MemStorage.createIssue (mkEnv "f" sampleNow) fiveIssues
            sampleInsertIssue).2 ∈ l.
Proof.
  destruct (post_issue_then_listed (mkEnv "f" sampleNow) fiveIssues
              sampleInsertIssue sampleInsertIssue "ada@example.org")
    as (_ & _ & (l & Hl & Hin) & _); [by_evaluation|].
  exists l. split; [exact Hl|]. apply Hin. by_evaluation.
Defined.

(** A comment that [POST /api/issues/:id/comments] has created is in the
    thread that [GET /api/issues/:id] sends next for that issue, whatever
    issue the body named; and when its identifier is new, every comment
    of the thread before is still in it. *)
Theorem post_comment_then_get_issue (e : Env) (st : MemStorage.t)
    (id : string) (body issue validated : Obj) :
  MemStorage.getIssue st id = Some issue →
  parse insertCommentSchema (<["issueId" := JStr id]> body) = inr validated →
  let st' := storage (serve (post_comment e id body) st).2 in
  let comment := (MemStorage.createComment e st validated).2 in
  ∃ thread,
    get_issue id st'
    = (inr (mkReply 200 (PIssue (delete "comments" issue) thread)), st')
    ∧ comment ∈ thread
    ∧ (JsMap.get (uuid e) (MemStorage.comments st) = None →
       ∀ c, c ∈ MemStorage.getCommentsByIssueId st id → c ∈ thread).
Proof.
  intros Hget Hparse st' comment. subst st' comment.
  rewrite (post_comment_valid e st id body issue validated Hget Hparse).
  cbn [fst snd storage].
  destruct (createComment_stored e st validated)
    as (Hstored & Hissues & _ & _ & _ & _ & Hother & _).
  assert (Hid : validated !! "issueId" = Some (JStr id)).
  { apply parse_ok_inv in Hparse as [-> _].
    rewrite strip_lookup, decide_True by by_evaluation.
    apply lookup_insert_eq. }
  eexists. split; [|split].
  - run_read. cbn [getIssue getCommentsByIssueId MemStorage_IStorage].
    unfold MemStorage.getIssue in *.
    rewrite Hissues, Hget. reflexivity.
  - unfold MemStorage.getCommentsByIssueId.
    rewrite js_sort_perm, list_elem_of_filter. split.
    + rewrite Hother by by_evaluation. done.
    + by apply (get_elem_values _ (uuid e)).
  - intros Hfresh c. unfold MemStorage.getCommentsByIssueId.
    rewrite !js_sort_perm, !list_elem_of_filter.
    intros [Hc Hin]. split; [done|].
    unfold MemStorage.createComment. cbn [fst MemStorage.comments].
    apply get_None_keys in Hfresh.
    rewrite (set_new _ _ _ Hfresh).
    unfold JsMap.values. rewrite fmap_app. apply elem_of_app. by left.
Qed.

(** A note on issue [a] of the sample thread, sent with the name of
    another issue in the body. *)
Lemma post_comment_then_get_issue_witness :
  ∃ thread,
    (get_issue "a"
       (storage (serve (post_comment (mkEnv "c4" sampleNow) "a"
                          sampleCommentBody) sampleThread).2)).1
    = inr (mkReply 200 (PIssue issueA thread))
    ∧ commentC1 ∈ thread.
Proof.
  assert (Hget : MemStorage.getIssue sampleThread "a" = Some issueA)
    by reflexivity.
  assert (Hparse : parse insertCommentSchema
                     (<["issueId" := JStr "a"]> sampleCommentBody)
                   = inr (<["issueId" := JStr "a"]> sampleCommentBody))
    by by_evaluation.
  destruct (post_comment_then_get_issue (mkEnv "c4" sampleNow) sampleThread
              "a" sampleCommentBody issueA _ Hget Hparse)
    as (thread & Hreply & _ & Hold).
  exists thread. split.
  - rewrite Hreply. cbn [fst]. do 3 f_equal; by_evaluation.
  - apply Hold; [reflexivity|]. by_evaluation.
Defined.

(** [PATCH /api/issues/:id] for a known issue answers 200 after one call
    of the storage with the issue as the body has changed it, the body
    being taken as it comes; [GET /api/issues/:id] then sends that issue,
    and the thread it sends is the one from before the change. *)
Theorem patch_then_get_issue (e : Env) (st : MemStorage.t) (id : string)
    (body old : Obj) :
  MemStorage.getIssue st id = Some old →
  let r := serve (patch_issue e id body) st in
  let updated := <["updatedAt" := JDate (now e)]> (spread old body) in
  r.1 = inr (mkResponse 200 updated)
  ∧ calls r.2 = [CallUpdateIssue id body]
  ∧ get_issue id (storage r.2)
    = (inr (mkReply 200 (PIssue (delete "comments" updated)
                           (MemStorage.getCommentsByIssueId st id))),
       storage r.2).
Proof.
  intros Hget r updated. subst r updated.
  run_handler. run_read. simpl.
  unfold MemStorage.updateIssue, MemStorage.getIssue in *.
  rewrite Hget. simpl.
  by rewrite get_set_eq.
Qed.

(** Issue [a] of the sample thread is given a numeric status. *)
Lemma patch_then_get_issue_witness :
  (serve (patch_issue (mkEnv "" sampleNow) "a" numericPatch) sampleThread).1
  = inr (mkResponse 200 patchedA).
Proof.
  destruct (patch_then_get_issue (mkEnv "" sampleNow) sampleThread "a"
              numericPatch issueA) as (Hreply & _ & _); [reflexivity|].
  rewrite Hreply. do 2 f_equal; by_evaluation.
Defined.

(** ** The team dashboard *)

Lemma filter_throwing_spec {A} (f : A → option bool) (l shown : list A) :
  filter_throwing f l = Some shown →
  sublist shown l
  ∧ (∀ x, x ∈ l → ∃ b, f x = Some b)
  ∧ (∀ x, x ∈ shown ↔ x ∈ l ∧ f x = Some true).
Proof.
  revert shown. induction l as [|x l IH]; simpl; intros shown Hf.
  - simplify_eq. split; [done|]. split; [by intros ? ?%elem_of_nil|].
    intros x. rewrite elem_of_nil. tauto.
  - destruct (f x) as [keep|] eqn:Hx; [|done].
    destruct (filter_throwing f l) as [rest|]; [|done].
    simplify_eq. destruct (IH rest eq_refl) as (Hsub & Hdef & Hin).
    split; [|split].
    + destruct keep; [by apply sublist_skip|by apply sublist_cons].
    + intros y [->|Hy]%elem_of_cons; [by eexists|by apply Hdef].
    + intros y. rewrite elem_of_cons. destruct keep.
      * rewrite elem_of_cons, Hin. split.
        -- intros [->|[? ?]]; split; auto.
        -- intros [[->|?] ?]; auto.
      * rewrite Hin. split.
        -- intros [? ?]; split; auto.
        -- intros [[->|?] ?]; [congruence|auto].
Qed.

Lemma matchesStatus_true (issue : Obj) (statusFilter : string) :
  matchesStatus issue statusFilter = true
  ↔ statusFilter = "" ∨ statusFilter = "all" ∨ has_status statusFilter issue.
Proof.
  unfold matchesStatus, has_status. simpl.
  rewrite !orb_true_iff, negb_true_iff, negb_false_iff, !String.eqb_eq,
    bool_decide_eq_true.
  tauto.
Qed.

Lemma matchesPriority_true (issue : Obj) (priorityFilter : string) :
  matchesPriority issue priorityFilter = true
  ↔ priorityFilter = "" ∨ priorityFilter = "all"
    ∨ has_priority priorityFilter issue.
Proof.
  unfold matchesPriority, has_priority. simpl.
  rewrite !orb_true_iff, negb_true_iff, negb_false_iff, !String.eqb_eq,
    bool_decide_eq_true.
  tauto.
Qed.

(** When the list of the dashboard is computed at all, it is a part of the
    fetched issues in their order, it shows no resolved issue, and an
    issue is shown exactly when it is not resolved, the search finds it,
    and it has the chosen status and priority, where an empty choice and
    the choice [all] ask for nothing.  Choosing the status [resolved]
    therefore shows nothing. *)
Theorem filteredIssues_shown (toLowerCase : string → string)
    (issues shown : list Obj) (searchTerm statusFilter priorityFilter : string) :
  filteredIssues toLowerCase issues searchTerm statusFilter priorityFilter
  = Some shown →
  sublist shown issues
  ∧ (∀ issue,
       issue ∈ shown
       ↔ issue ∈ issues
         ∧ ¬ has_status "resolved" issue
         ∧ matchesSearch toLowerCase issue searchTerm = Some true
         ∧ (statusFilter = "" ∨ statusFilter = "all"
            ∨ has_status statusFilter issue)
         ∧ (priorityFilter = "" ∨ priorityFilter = "all"
            ∨ has_priority priorityFilter issue))
  ∧ (statusFilter = "resolved" → shown = []).
Proof.
  unfold filteredIssues, activeIssues. intros Hf.
  apply filter_throwing_spec in Hf as (Hsub & _ & Hin).
  assert (Hiff : ∀ issue,
    issue ∈ shown
    ↔ issue ∈ issues
      ∧ ¬ has_status "resolved" issue
      ∧ matchesSearch toLowerCase issue searchTerm = Some true
      ∧ (statusFilter = "" ∨ statusFilter = "all"
         ∨ has_status statusFilter issue)
      ∧ (priorityFilter = "" ∨ priorityFilter = "all"
         ∨ has_priority priorityFilter issue)).
  { intros issue. rewrite Hin, list_elem_of_filter.
    rewrite <- matchesStatus_true, <- matchesPriority_true.
    unfold has_status.
    destruct (matchesSearch toLowerCase issue searchTerm) as [[]|];
      destruct (matchesStatus issue statusFilter);
      destruct (matchesPriority issue priorityFilter); simpl;
      intuition congruence. }
  split; [|split; [exact Hiff|]].
  - etrans; [exact Hsub|]. apply sublist_filter.
  - intros ->. destruct shown as [|issue shown]; [done|].
    destruct (proj1 (Hiff issue)) as (_ & Hnot & _ & Hst & _); [by left|].
    destruct Hst as [?|[?|?]]; done.
Qed.

(** The search for [B] among the five issues. *)
Lemma filteredIssues_shown_witness :
  sublist [issueB] (JsMap.values (MemStorage.issues fiveIssues)).
Proof.
  apply (filteredIssues_shown asciiLower
           (JsMap.values (MemStorage.issues fiveIssues)) [issueB] "B" "" "").
  by_evaluation.
Defined.

Lemma filter_throwing_None {A} (f : A → option bool) (l : list A) :
  filter_throwing f l = None ↔ ∃ x, x ∈ l ∧ f x = None.
Proof.
  induction l as [|x l IH]; simpl.
  - split; [done|]. by intros (? & ?%elem_of_nil & _).
  - destruct (f x) as [keep|] eqn:Hx.
    + destruct (filter_throwing f l) as [rest|].
      * split; [done|]. intros (y & [->|Hy]%elem_of_cons & Hn); [congruence|].
        assert (Some rest = None) as [=]. apply IH. by exists y.
      * split; [|done]. intros _. destruct (proj1 IH eq_refl) as (y & Hy & Hn).
        exists y. split; [by right|done].
    + split; [|done]. intros _. exists x. split; [by left|done].
Qed.

(** Computing the list of the dashboard throws exactly when the search
    throws on an issue that is not resolved.  The search does not throw
    on an issue whose four searched fields are strings, and it throws on
    every issue whose title is not a string. *)
Theorem filteredIssues_throws (toLowerCase : string → string)
    (issues : list Obj) (searchTerm statusFilter priorityFilter : string) :
  (filteredIssues toLowerCase issues searchTerm statusFilter priorityFilter
   = None
   ↔ ∃ issue, issue ∈ issues ∧ ¬ has_status "resolved" issue
       ∧ matchesSearch toLowerCase issue searchTerm = None)
  ∧ (∀ issue, searchable issue →
       matchesSearch toLowerCase issue searchTerm ≠ None)
  ∧ (∀ issue, (∀ s, issue !! "title" ≠ Some (JStr s)) →
       matchesSearch toLowerCase issue searchTerm = None).
Proof.
  split; [|split].
  - unfold filteredIssues, activeIssues. rewrite filter_throwing_None.
    split.
    + intros (issue & Hin & Hn). apply list_elem_of_filter in Hin as [Hr Hin].
      exists issue. split; [done|]. split; [done|].
      by destruct (matchesSearch toLowerCase issue searchTerm).
    + intros (issue & Hin & Hr & Hn). exists issue.
      split; [by apply list_elem_of_filter|]. by rewrite Hn.
  - intros issue Hs. unfold matchesSearch.
    destruct (Hs "title") as [? ->]; [set_solver|].
    destruct (Hs "description") as [? ->]; [set_solver|].
    destruct (Hs "customerName") as [? ->]; [set_solver|].
    destruct (Hs "customerEmail") as [? ->]; [set_solver|].
    simpl. by repeat destruct (includes _ _).
  - intros issue Ht. unfold matchesSearch.
    destruct (issue !! "title") as [[]|] eqn:Htitle; try done.
    by destruct (Ht s).
Qed.

Lemma includes_empty (s : string) : includes s "" = true.
Proof. by destruct s. Qed.

(** With a search term that is empty in lower case and no status and no
    priority chosen, the dashboard shows all the issues that are not
    resolved, provided these have a string as their title. *)
Theorem filteredIssues_default (toLowerCase : string → string)
    (issues : list Obj) (searchTerm statusFilter priorityFilter : string) :
  (∀ issue, issue ∈ issues → ¬ has_status "resolved" issue →
     ∃ s, issue !! "title" = Some (JStr s)) →
  toLowerCase searchTerm = "" →
  statusFilter = "" ∨ statusFilter = "all" →
  priorityFilter = "" ∨ priorityFilter = "all" →
  filteredIssues toLowerCase issues searchTerm statusFilter priorityFilter
  = Some (activeIssues issues).
Proof.
  intros Htitle Hterm Hsf Hpf. unfold filteredIssues.
  assert (Hactive : ∀ issue, issue ∈ activeIssues issues →
            ∃ s, issue !! "title" = Some (JStr s)).
  { intros issue [Hr Hin]%list_elem_of_filter. by apply Htitle. }
  induction (activeIssues issues) as [|issue l IH]; simpl; [done|].
  destruct (Hactive issue) as [s Hs]; [by left|].
  unfold matchesSearch, fieldMatches at 1. rewrite Hs, Hterm, includes_empty.
  simpl.
  rewrite (proj2 (matchesStatus_true issue statusFilter)) by tauto.
  rewrite (proj2 (matchesPriority_true issue priorityFilter)) by tauto.
  simpl. unfold matchesSearch in IH. rewrite IH; [done|].
  intros ? ?. apply Hactive. by right.
Qed.

(** The dashboard as it opens on the five issues. *)
Lemma filteredIssues_default_witness :
  filteredIssues asciiLower (JsMap.values (MemStorage.issues fiveIssues))
    "" "" "all"
  = Some [issueA; issueB; issueE].
Proof.
  rewrite (filteredIssues_default asciiLower).
  - f_equal; by_evaluation.
  - intros issue Hin _.
    assert (Hall : Forall (λ issue : Obj, ∃ s, issue !! "title" = Some (JStr s))
                     (JsMap.values (MemStorage.issues fiveIssues))).
    { repeat constructor; by eexists. }
    by apply (proj1 (Forall_forall _ _) Hall).
  - reflexivity.
  - by left.
  - by right.
Defined.

Lemma length_active (l : list Obj) :
  Forall status_known l →
  length (activeIssues l)
  = (length (filter (λ issue : Obj, issue !! "status" = Some (JStr "open")) l)
     + length (filter (λ issue : Obj,
                         issue !! "status" = Some (JStr "in-progress")) l))%nat.
Proof.
  unfold activeIssues.
  induction 1 as [|issue l Hk _ IH]; [done|].
  rewrite !filter_cons.
  unfold status_known, has_status in *.
  destruct Hk as [Hs|[Hs|Hs]];
    repeat match goal with
           | |- context [decide ?P] =>
               first [ rewrite (decide_True (P := P))
                         by (rewrite Hs; intuition congruence)
                     | rewrite (decide_False (P := P))
                         by (rewrite Hs; intuition congruence) ]
           end; simpl; lia.
Qed.

(** When every stored issue has one of the three statuses, the issues
    that the dashboard keeps as active, out of the list of all issues,
    are as many as the statistics count as open and as in progress
    together. *)
Theorem active_issues_counted (cal : Calendar) (e : Env) (st : MemStorage.t) :
  (∀ issue, issue ∈ JsMap.values (MemStorage.issues st) →
     status_known issue) →
  length (activeIssues (MemQueries.getAllIssues st))
  = (openIssues (MemStorage.getIssueStats cal e st)
     + inProgress (MemStorage.getIssueStats cal e st))%nat.
Proof.
  intros Hknown.
  unfold MemQueries.getAllIssues.
  trans (length (activeIssues (JsMap.values (MemStorage.issues st)))).
  - apply Permutation_length. unfold activeIssues. by rewrite js_sort_perm.
  - rewrite length_active by by apply Forall_forall. reflexivity.
Qed.

(** Three of the five issues are active. *)
Lemma active_issues_counted_witness :
  length (activeIssues (MemQueries.getAllIssues fiveIssues)) = 3%nat.
Proof.
  rewrite (active_issues_counted utc (mkEnv "" sampleNow)).
  - vm_compute. reflexivity.
  - intros issue Hin.
    assert (Hall : Forall status_known
                     (JsMap.values (MemStorage.issues fiveIssues))).
    { by_evaluation. }
    by apply (proj1 (Forall_forall _ _) Hall).
Defined.

(** ** The comment form *)

(** What the comment form of the modal hands over is accepted by
    [POST /api/issues/:id/comments] for every known issue: the answer is
    201 with a comment of the team on that issue that carries the text as
    it was typed, not trimmed, and that is internal unless the customer is
    to be notified.  A text that is empty once trimmed is not handed
    over. *)
Theorem handleAddComment_accepted (trim : string → string)
    (newComment : string) (notifyCustomer : bool) (payload : Obj)
    (e : Env) (st : MemStorage.t) (id : string) (issue : Obj) :
  handleAddComment trim newComment notifyCustomer = Some payload →
  MemStorage.getIssue st id = Some issue →
  trim newComment ≠ ""
  ∧ ∃ comment,
      (serve (post_comment e id payload) st).1 = inr (mkResponse 201 comment)
      ∧ comment !! "issueId" = Some (JStr id)
      ∧ comment !! "author" = Some (JStr "Team Member")
      ∧ comment !! "content" = Some (JStr newComment)
      ∧ comment !! "isInternal"
        = Some (JStr (if notifyCustomer then "false" else "true")).
Proof.
  unfold handleAddComment. simpl. rewrite negb_involutive.
  destruct (String.eqb (trim newComment) "") eqn:Htrim; [done|].
  intros [= <-] Hget.
  apply String.eqb_neq in Htrim. split; [done|].
  set (payload := {[ "author" := JStr "Team Member";
                     "content" := JStr newComment;
                     "isInternal" := JStr (if notifyCustomer then "false"
                                           else "true") ]} : Obj).
  set (data := <["issueId" := JStr id]> payload).
  assert (Hparse : parse insertCommentSchema data
                   = inr (strip insertCommentSchema data)).
  { apply parse_ok_intro. intros k kind Hin.
    repeat (apply elem_of_cons in Hin as [[= -> ->]|Hin]); try done.
    by apply elem_of_nil in Hin. }
  rewrite (post_comment_valid e st id payload issue _ Hget Hparse).
  destruct (createComment_stored e st (strip insertCommentSchema data))
    as (_ & _ & _ & _ & _ & Hinternal & Hother & _).
  eexists. split; [reflexivity|].
  split_and!.
  - rewrite Hother by by_evaluation.
    by rewrite strip_lookup, decide_True by by_evaluation.
  - rewrite Hother by by_evaluation.
    by rewrite strip_lookup, decide_True by by_evaluation.
  - rewrite Hother by by_evaluation.
    by rewrite strip_lookup, decide_True by by_evaluation.
  - rewrite (Hinternal (if notifyCustomer then "false" else "true")).
    + by destruct notifyCustomer.
    + by rewrite strip_lookup, decide_True by by_evaluation.
Qed.

(** A note typed with a blank at its end, the customer not notified. *)
Lemma handleAddComment_accepted_witness :
  ∃ comment,
    (serve (post_comment (mkEnv "c4" sampleNow) "a"
              {[ "author" := JStr "Team Member"; "content" := JStr "On it ";
                 "isInternal" := JStr "true" ]}) sampleThread).1
    = inr (mkResponse 201 comment)
    ∧ comment !! "content" = Some (JStr "On it ").
Proof.
  destruct (handleAddComment_accepted trimBlanks "On it " false
              {[ "author" := JStr "Team Member"; "content" := JStr "On it ";
                 "isInternal" := JStr "true" ]}
              (mkEnv "c4" sampleNow) sampleThread "a" issueA eq_refl eq_refl)
    as (_ & comment & Hreply & _ & _ & Hcontent & _).
  by exists comment.
Defined.

(** ** The customer form *)

Lemma stripForm_lookup (s : FormSchema) (data : Obj) (k : string) :
  stripForm s data !! k = if decide (k ∈ s.*1) then data !! k else None.
Proof.
  induction s as [|[k' f] s IH]; simpl.
  - by rewrite lookup_empty.
  - destruct (decide (k = k')) as [->|Hne].
    + rewrite decide_True by left.
      destruct (data !! k') as [v|] eqn:Hv.
      * by rewrite lookup_insert_eq.
      * rewrite IH. by case_decide.
    + assert (Hrest : stripForm s data !! k
                      = if decide (k ∈ k' :: s.*1) then data !! k else None).
      { rewrite IH. destruct (decide (k ∈ s.*1)) as [Hin|Hnin].
        - by rewrite decide_True by (by right).
        - rewrite decide_False; [done|]. by intros [?|?]%elem_of_cons. }
      destruct (data !! k'); [rewrite lookup_insert_ne by done|]; exact Hrest.
Qed.

Lemma parseForm_ok_inv (s : FormSchema) (data out : Obj) :
  parseForm s data = inr out →
  out = stripForm s data
  ∧ ∀ k f, (k, f) ∈ s → form_field_ok f (data !! k) = true.
Proof.
  unfold parseForm.
  destruct ((filter _ s).*1) as [|p ps] eqn:Hissues; [|done].
  intros [= <-]. split; [done|].
  intros k f Hin.
  apply fmap_nil_inv in Hissues.
  destruct (form_field_ok f (data !! k)) eqn:Hok; [done|].
  assert (Hbad : (k, f) ∈ filter (λ f, form_field_ok f.2 (data !! f.1) = false) s)
    by by apply list_elem_of_filter.
  rewrite Hissues in Hbad. by apply elem_of_nil in Hbad.
Qed.

(** What the form of the customer page accepts, the server accepts as it
    is: a submission parsed by the form schema conforms to the insert
    schema, so that [POST /api/issues] answers 201 with the issue made of
    it.  Its four texts passed the checks of the form. *)
Theorem formSchema_accepted (length : string → nat) (isEmail : string → bool)
    (data out : Obj) (e : Env) (st : MemStorage.t) :
  parseForm (formSchema length isEmail) data = inr out →
  conforms insertIssueSchema out
  ∧ serve (post_issue e out) st
    = (inr (mkResponse 201 (MemStorage.createIssue e st out).2),
       mkServer (MemStorage.createIssue e st out).1 [CallCreateIssue out])
  ∧ ∃ title description customerName customerEmail,
      out !! "title" = Some (JStr title)
      ∧ out !! "description" = Some (JStr description)
      ∧ out !! "customerName" = Some (JStr customerName)
      ∧ out !! "customerEmail" = Some (JStr customerEmail)
      ∧ (1 ≤ length title)%nat ∧ (10 ≤ length description)%nat
      ∧ (1 ≤ length customerName)%nat ∧ isEmail customerEmail = true.
Proof.
  intros Hparse.
  apply parseForm_ok_inv in Hparse as [-> Hok].
  pose proof (stripForm_lookup (formSchema length isEmail) data) as Hout.
  set (out := stripForm (formSchema length isEmail) data) in *.
  assert (Hkeys : (formSchema length isEmail).*1 = insertIssueSchema.*1)
    by reflexivity.
  assert (Hconforms : conforms insertIssueSchema out).
  { unfold conforms.
    rewrite parse_ok_intro.
    - f_equal. apply map_eq. intros k.
      rewrite strip_lookup, Hout, Hkeys. by case_decide.
    - intros k kind Hin.
      assert (Hk : k ∈ insertIssueSchema.*1)
        by (apply list_elem_of_fmap; by exists (k, kind)).
      rewrite Hout, Hkeys, decide_True by done.
      repeat (apply elem_of_cons in Hin as [[= -> ->]|Hin]);
        try (by apply elem_of_nil in Hin);
        match goal with
        | |- field_ok _ (data !! ?key) = true =>
            let f := fresh "f" in
            let Hf := fresh "Hf" in
            evar (f : FormField);
            assert (Hf : (key, f) ∈ formSchema length isEmail)
              by (subst f; unfold formSchema, extend; simpl;
                  repeat first [ apply list_elem_of_here
                               | apply list_elem_of_further ]);
            apply Hok in Hf; subst f; simpl in Hf;
            by destruct (data !! key) as [[]|]
        end. }
  split; [done|]. split; [by apply post_issue_valid|].
  assert (Hfields : Forall (λ f, form_field_ok f.2 (data !! f.1) = true)
                      (formSchema length isEmail)).
  { apply Forall_forall. intros [k f]. apply Hok. }
  unfold formSchema, extend in Hfields. cbn in Hfields.
  apply Forall_cons in Hfields as [Ht Hfields].
  apply Forall_cons in Hfields as [Hd Hfields].
  apply Forall_cons in Hfields as [Hn Hfields].
  apply Forall_cons in Hfields as [He _].
  cbn in Ht, Hd, Hn, He.
  rewrite !Hout, Hkeys, !decide_True by by_evaluation.
  destruct (data !! "title") as [[| | |title| |]|]; try discriminate Ht.
  destruct (data !! "description") as [[| | |description| |]|];
    try discriminate Hd.
  destruct (data !! "customerName") as [[| | |customerName| |]|];
    try discriminate Hn.
  destruct (data !! "customerEmail") as [[| | |customerEmail| |]|];
    try discriminate He.
  exists title, description, customerName, customerEmail.
  unfold min in *.
  split_and!; try done; by apply Nat.leb_le.
Qed.

(** A submission that the form accepts, with the length of a text
    counted in its characters and an e-mail address taken to be a text
    with an [@]. *)
Lemma formSchema_accepted_witness :
  conforms insertIssueSchema
    (<["description" := JStr "The printer is on fire"]> sampleInsertIssue).
Proof.
  apply (formSchema_accepted String.length (λ s, includes s "@")
           (<["description" := JStr "The printer is on fire"]> sampleInsertIssue)
           (<["description" := JStr "The printer is on fire"]> sampleInsertIssue)
           (mkEnv "" 0) MemStorage.new).
  by_evaluation.
Defined.

(** ** What a creating request can say *)

Lemma parse_ext (s : Schema) (data1 data2 : Obj) :
  (∀ k, k ∈ s.*1 → data1 !! k = data2 !! k) →
  parse s data1 = parse s data2.
Proof.
  intros Hext. unfold parse.
  assert (Hissues : issuesOf s data1 = issuesOf s data2).
  { unfold issuesOf. f_equal. apply filter_ext_elem. intros [k kind] Hin.
    simpl. rewrite (Hext k); [done|].
    apply list_elem_of_fmap. by exists (k, kind). }
  assert (Hstrip : strip s data1 = strip s data2).
  { apply map_eq. intros k. rewrite !strip_lookup.
    case_decide; [by apply Hext|done]. }
  by rewrite Hissues, Hstrip.
Qed.

(** The two creating handlers read of the body the fields of their schema
    and nothing else: two bodies that agree on the fields of the insert
    schema of issues get the same answer from [POST /api/issues] and lead
    to the same store, and so do, for [POST /api/issues/:id/comments], two
    bodies that agree on the author, the content and the internal mark.  A
    body cannot choose the identifier or a date of what is created. *)
Theorem posts_read_schema_fields (e : Env) (st : MemStorage.t) (id : string)
    (body1 body2 : Obj) :
  ((∀ k, k ∈ insertIssueSchema.*1 → body1 !! k = body2 !! k) →
   serve (post_issue e body1) st = serve (post_issue e body2) st)
  ∧ ((∀ k, k ∈ ["author"; "content"; "isInternal"] →
        body1 !! k = body2 !! k) →
     serve (post_comment e id body1) st = serve (post_comment e id body2) st).
Proof.
  split; intros Hext.
  - run_handler. by rewrite (parse_ext _ body1 body2 Hext).
  - run_handler. simpl.
    destruct (MemStorage.getIssue st id); [|done].
    rewrite (parse_ext _ (<["issueId" := JStr id]> body1)
               (<["issueId" := JStr id]> body2)); [done|].
    intros k Hk.
    destruct (decide (k = "issueId")) as [->|Hne].
    + by rewrite !lookup_insert_eq.
    + rewrite !lookup_insert_ne by done. apply Hext.
      simpl in Hk. by apply elem_of_cons in Hk as [->|Hk].
Qed.

(** A submission that names an identifier of its own. *)
Lemma posts_read_schema_fields_witness :
  serve (post_issue (mkEnv "f" sampleNow)
           (<["id" := JStr "chosen"]> sampleInsertIssue)) fiveIssues
  = serve (post_issue (mkEnv "f" sampleNow) sampleInsertIssue) fiveIssues.
Proof.
  apply (posts_read_schema_fields (mkEnv "f" sampleNow) fiveIssues "").
  intros k Hk. apply lookup_insert_ne. intros <-. revert Hk. by_evaluation.
Defined.
